(** * Point clouds of the AT-TPC: construction, calibration, smoothing, sorting

    A shallow embedding of [spyral/core/point_cloud.py] and
    [spyral/correction/electron_corrector.py].

    Numbers.  The arrays of the program hold float64 values.  They are
    modelled as exact rationals ([Q]): an arithmetic operation is the
    exact one and comparisons are the rational ones.  Two places follow
    float64 more closely, because what the methods do depends on it: the
    product inside [np.round] is rounded to the nearest double ([Np.fl]),
    and a quotient by zero, which numpy answers with inf or nan and a
    warning, is an outcome of its own ([NotFinite]) and no exception.
    Integer identifiers stored into an array are injected with [inject_Z].

    Arrays.  An N x 8 array is a list of rows, a row a list of numbers;
    [a[i, j] = v] is [alter (<[j := v]>) i a], and indexing with a list of
    indices raises [IndexError] outside the array as numpy does. *)

From Stdlib Require Import Reals Qreals.
From Stdlib Require Import ZArith QArith Qabs Qround Qminmax Qpower Lia Lqa Bool.
From stdpp Require Import base option list sorting strings gmap.

(** ** Outcomes of a method call *)

Inductive exn : Type :=
| ZeroDivisionError      (* raised by np.average: weights sum to zero *)
| IndexError.            (* an index outside an array *)

(** A call returns ([Ok]), raises ([Raise]), or computes a float64 value
    that is not finite ([NotFinite]): numpy answers a quotient by zero with
    inf or nan and a RuntimeWarning, raises nothing, and the method goes on
    and returns with that value in its array.  The rationals have no such
    value, so the model does not follow the call further: [NotFinite] says
    that the method returns and that the array it leaves holds inf or
    nan. *)
Inductive result (A : Type) : Type :=
| Ok (a : A)
| Raise (e : exn)
| NotFinite.
Arguments Ok {A} a.
Arguments Raise {A} e.
Arguments NotFinite {A}.

#[global] Instance result_ret : MRet result := @Ok.
#[global] Instance result_bind : MBind result :=
  λ A B f m,
    match m with Ok a => f a | Raise e => Raise e | NotFinite => NotFinite end.

(** A [for] loop whose body may raise: the first exception ends the loop
    (and the model leaves the loop at the first value that is not
    finite). *)
Fixpoint foldM {A B : Type} (f : A → B → result A) (a : A) (l : list B)
  : result A :=
  match l with
  | [] => Ok a
  | b :: l' => a' ← f a b; foldM f a' l'
  end.

(** A row of an array. *)
Abbreviation row := (list Q).

(** [p[j]] on a row.  Rows of a cloud have 8 fields, so the default is
    never read by the methods below. *)
Definition get (p : row) (j : nat) : Q := default 0%Q (p !! j).

(** ** The numpy functions the methods call *)

Module Np.

(** [np.zeros((n, m))] *)
Definition zeros (n m : nat) : list row := replicate n (replicate m 0%Q).

Definition ltb (a b : Q) : bool := negb (Qle_bool b a).

(** [a - b] on two vectors of the same shape. *)
Definition subtract (a b : list Q) : list Q := zip_with Qminus a b.

Definition sum (l : list Q) : Q := foldr Qplus 0%Q l.

(** [np.linalg.norm(d) < m].  The norm is the square root of the sum of
    the squares; on exact numbers the comparison holds exactly when [m]
    is positive and the sum of the squares is below [m * m] (lemma
    [norm_lt_sqrt] below). *)
Definition norm_lt (d : list Q) (m : Q) : bool :=
  ltb 0 m && ltb (sum (map (λ x, x * x)%Q d)) (m * m).

(** [a / b] on float64 scalars: with a zero divisor the quotient is inf
    or nan. *)
Definition divide (a b : Q) : result Q :=
  if Qeq_bool b 0 then NotFinite else Ok (a / b)%Q.

(** [np.average(a, axis=0, weights=w)]:
    [scl = w.sum()]; ZeroDivisionError if [scl == 0];
    [np.multiply(a, w).sum(axis=0) / scl], the weights broadcast along
    the rows. *)
Definition scale_row (w : Q) (r : row) : row := map (λ x, x * w)%Q r.

Definition add_rows (r acc : row) : row := zip_with Qplus r acc.

(** [a.shape[1]].  A list of rows does not say how many columns an array
    without rows has; the two-dimensional arrays of the methods have 8,
    also when they have no row ([np.zeros((0, 8))]). *)
Definition ncols (a : list row) : nat :=
  match a with r :: _ => length r | [] => 8 end.

Definition weighted_sum (a : list row) (w : list Q) : row :=
  foldr add_rows (replicate (ncols a) 0%Q) (zip_with scale_row w a).

Definition average (a : list row) (w : list Q) : result row :=
  let scl := sum w in
  if Qeq_bool scl 0 then Raise ZeroDivisionError
  else Ok (map (λ s, s / scl)%Q (weighted_sum a w)).

(** [np.isclose(a, b)] with the default tolerances
    [rtol = 1e-05], [atol = 1e-08]. *)
Definition isclose (a b : Q) : bool :=
  Qle_bool (Qabs (a - b)) ((1 # 100000000) + (1 # 100000) * Qabs b).

(** [np.rint]: the nearest integer, halves to the even one. *)
Definition rint (x : Q) : Z :=
  let f := Qfloor x in
  let r := (x - inject_Z f)%Q in
  match (r ?= 1 # 2)%Q with
  | Lt => f
  | Gt => (f + 1)%Z
  | Eq => if Z.even f then f else (f + 1)%Z
  end.

(** The float64 nearest to an exact value, halves to the even
    significand.  A double is [m * 2^e] with [|m| <= 2^53]; [e] is the
    exponent of the value less 52, and not below -1074, the exponent of the
    subnormal doubles.  (Values stay below the largest double, about
    1.8e308, beyond which float64 answers inf.) *)
Definition ilog2 (a : Q) : Z :=
  let e0 := (Z.log2 (Qnum a) - Z.log2 (Zpos (Qden a)))%Z in
  if Qle_bool (2 ^ e0) a then e0 else (e0 - 1)%Z.

Definition fl (x : Q) : Q :=
  let e := Z.max (ilog2 (Qabs x) - 52) (-1074) in
  (inject_Z (rint (x / 2 ^ e)) * 2 ^ e)%Q.

(** [np.round(x, decimals)] for [decimals >= 0].  numpy documents it as
    [np.true_divide(np.rint(x * 10**decimals), 10**decimals)], "a fast but
    sometimes inexact algorithm": the product and the quotient are float64
    operations, and the rounding of the product decides on which side of
    the middle between two multiples of [10**-decimals] a value falls. *)
Definition round (decimals : nat) (x : Q) : Q :=
  let s := inject_Z (10 ^ Z.of_nat decimals) in
  fl (inject_Z (rint (fl (x * s))) / s).

(** [a[indices]] with a list of row indices. *)
Definition index_rows (a : list row) (indices : list nat) : result (list row) :=
  match mapM (λ i, a !! i) indices with
  | Some rows => Ok rows
  | None => Raise IndexError
  end.

(** [np.unique(ar, axis=0, return_index=True)[1]].  numpy views each row
    as one record, sorts the records with a stable sort
    ([perm = ar.argsort(kind='mergesort')], records compare field by
    field), keeps the head of every run of equal records
    ([mask[:1] = True; mask[1:] = aux[1:] != aux[:-1]]) and returns
    [perm[mask]]. *)
Fixpoint row_less (a b : list Q) : bool :=
  match a, b with
  | x :: a', y :: b' => ltb x y || (Qeq_bool x y && row_less a' b')
  | [], _ :: _ => true
  | _, [] => false
  end.

Fixpoint row_eqb (a b : list Q) : bool :=
  match a, b with
  | [], [] => true
  | x :: a', y :: b' => Qeq_bool x y && row_eqb a' b'
  | _, _ => false
  end.

Section Unique1d.
Context {K : Type} (less : K → K → bool) (eqb : K → K → bool).

Definition enumerate (ar : list K) : list (K * nat) :=
  zip ar (seq 0 (length ar)).

Fixpoint insert_stable (x : K * nat) (l : list (K * nat)) : list (K * nat) :=
  match l with
  | [] => [x]
  | y :: l' => if less y.1 x.1 then y :: insert_stable x l' else x :: l
  end.

Definition sort_stable (l : list (K * nat)) : list (K * nat) :=
  foldr insert_stable [] l.

Fixpoint run_heads (prev : K) (aux : list (K * nat)) : list (K * nat) :=
  match aux with
  | [] => []
  | y :: t =>
      if eqb y.1 prev then run_heads y.1 t else y :: run_heads y.1 t
  end.

Definition unique1d (ar : list K) : list (K * nat) :=
  match sort_stable (enumerate ar) with
  | [] => []
  | y :: t => y :: run_heads y.1 t
  end.
End Unique1d.

Definition unique_rows_index (ar : list row) : list nat :=
  (unique1d row_less row_eqb ar).*2.

(** [np.argsort(keys)] with the default [kind='quicksort'] returns an
    index array that sorts [keys]; the order of equal keys is not part
    of its contract (numpy documents this kind as not stable), and numpy
    itself is not among the sources: the methods take the index sort as a
    parameter, and this is what they may rely on. *)
Definition is_argsort (keys : list Q) (indices : list nat) : Prop :=
  indices ≡ₚ seq 0 (length keys) ∧
  ∀ a b i j, (a < b)%nat → indices !! a = Some i → indices !! b = Some j →
             (get keys i <= get keys j)%Q.

(** [indices[p]] *)
Definition deref (indices : list nat) (p : nat) : nat := default 0%nat (indices !! p).

(** A check of the contract of np.argsort on one answer. *)
Definition check_argsort (keys : list Q) (indices : list nat) : bool :=
  let n := length keys in
  (length indices =? n)%nat
  && forallb (λ i, existsb (Nat.eqb i) indices) (seq 0 n)
  && forallb (λ a, forallb (λ b, (b <=? a)%nat
                                 || Qle_bool (get keys (deref indices a))
                                             (get keys (deref indices b)))
                           (seq 0 n))
             (seq 0 n).

End Np.

(** ** Collaborators of the point cloud *)

(** Modelled from the spec: [Peak] is declared outside the sources given
    here; "Peak: {centroid: float (time units), amplitude: float,
    integral: float}". *)
Record Peak : Type := { centroid : Q; amplitude : Q; integral : Q }.

(** Modelled from the spec: the hardware id of a channel is declared
    outside the sources given here; it carries the raw pad id the
    electronics report, next to the electronics address. *)
Record HardwareID : Type := { channel : Z; pad_id : Z }.

(** Modelled from the spec: a trace is one channel of an event with its
    list of peaks ("yields per-channel peak lists"). *)
Record GetTrace : Type := { hw_id : HardwareID; get_peaks : list Peak }.

Definition get_number_of_peaks (trace : GetTrace) : nat :=
  length (get_peaks trace).

Record GetEvent : Type := { number : Z; traces : list GetTrace }.

(** Modelled from the spec: "Pad: {x, y, time_offset, gain, scale}". *)
Module PadData.
Record t : Type :=
  { x : Q; y : Q; time_offset : Q; gain : Q; scale : Q }.
End PadData.

(** Modelled from the spec: the geometry lookup, "hardware_id -> Pad |
    None, pad_id -> Pad | None"; in the code the first lookup answers
    with a pad id. *)
Record PadMap : Type :=
  { get_pad_from_hardware : HardwareID → option Z;
    get_pad_data : Z → option PadData.t }.

(** The functions of numpy's math library that [correct_point] calls.
    They have no rational values in general and are taken as given. *)
Class MathLib : Type :=
  { np_sqrt : Q → Q;
    np_cos : Q → Q;
    np_sin : Q → Q;
    np_arctan2 : Q → Q → Q }.

(** Modelled from the spec: the interpolator is declared outside the
    sources given here; a query [(r, t)] answers with the correction
    vector [(dr, dt_perp, dz)]. *)
Record BilinearInterpolator : Type :=
  { interpolate : Q → Q → list Q }.

(** Modelled from the spec: "Clamp dz into [0, 1000]". *)
Definition clamp (v lo hi : Q) : Q := Qmax lo (Qmin v hi).

(** ** electron_corrector.py *)

Record ElectronCorrector : Type := { correction : BilinearInterpolator }.

Section Corrector.
Context `{MathLib}.

(** [np.linalg.norm(point[:2])] *)
Definition norm2 (point : row) : Q :=
  np_sqrt (Np.sum (map (λ v, v * v)%Q (take 2 point))).

Definition correct_point (self : ElectronCorrector) (point : row) : row :=
  let corrected_point := replicate (length point) 0%Q in
  let corrected_point := take 3 corrected_point ++ drop 3 point in
  let radius := norm2 point in
  let azimuthal := np_arctan2 (get point 1) (get point 0) in
  let correction := interpolate (correction self) radius (get point 2) in
  let z_correction := clamp (get correction 2) 0 1000 in
  let corrected_radius :=
    np_sqrt ((radius + get correction 0) * (radius + get correction 0)
             + get correction 1 * get correction 1)%Q in
  let corrected_azim :=
    (azimuthal + np_arctan2 (get correction 1) (radius + get correction 0))%Q in
  let corrected_point :=
    <[0 := (corrected_radius * np_cos corrected_azim)%Q]> corrected_point in
  let corrected_point :=
    <[1 := (corrected_radius * np_sin corrected_azim)%Q]> corrected_point in
  let corrected_point :=
    <[2 := (get point 2 - z_correction)%Q]> corrected_point in
  corrected_point.
End Corrector.

(** ** point_cloud.py *)

(** [spyral_warn(__name__, f"When checking pad number of hardware:
    {trace.hw_id}, recieved None!")] *)
Inductive log_entry : Type :=
| spyral_warn (hw : HardwareID).

(** The N x 8 array of points; each row is
    [[x, y, z, amplitude, integral, pad id, time, scale]]. *)
Record PointCloud : Type := { event_number : Z; cloud : list row }.

(** [a[i, j] = v] *)
Definition set_cell (a : list row) (i j : nat) (v : Q) : list row :=
  alter (<[j := v]>) i a.

Section Load.
Context `{MathLib}.

(** The body of [for peak in trace.get_peaks()]. *)
Definition load_peak (corrector : option ElectronCorrector)
    (trace : GetTrace) (pad : PadData.t)
    (st : list row * nat) (peak : Peak) : list row * nat :=
  let '(cl, idx) := st in
  let cl := set_cell cl idx 0 (PadData.x pad) in
  let cl := set_cell cl idx 1 (PadData.y pad) in
  let cl := set_cell cl idx 2 (centroid peak + PadData.time_offset pad)%Q in
  let cl := set_cell cl idx 3 (amplitude peak) in
  let cl := set_cell cl idx 4 (integral peak * PadData.gain pad)%Q in
  let cl := set_cell cl idx 5 (inject_Z (pad_id (hw_id trace))) in
  let cl := set_cell cl idx 6 (centroid peak + PadData.time_offset pad)%Q in
  let cl := set_cell cl idx 7 (PadData.scale pad) in
  let cl :=
    match corrector with
    | Some c => alter (correct_point c) idx cl
    | None => cl
    end in
  (cl, S idx).

(** The body of the second [for trace in event.traces]. *)
Definition load_trace (pmap : PadMap) (corrector : option ElectronCorrector)
    (st : list row * nat * list log_entry) (trace : GetTrace)
  : list row * nat * list log_entry :=
  let '(cl, idx, log) := st in
  if (get_number_of_peaks trace =? 0)%nat then st
  else
    let pid := pad_id (hw_id trace) in
    match get_pad_from_hardware pmap (hw_id trace) with
    | None => (cl, idx, log ++ [spyral_warn (hw_id trace)])
    | Some check =>
        let pid := if negb (check =? pid)%Z then check else pid in
        match get_pad_data pmap check with
        | None => st
        | Some pad =>
            let '(cl, idx) :=
              foldl (load_peak corrector trace pad) (cl, idx) (get_peaks trace) in
            (cl, idx, log)
        end
    end.

Definition load_cloud_from_get_event (self : PointCloud) (event : GetEvent)
    (pmap : PadMap) (corrector : option ElectronCorrector)
  : PointCloud * list log_entry :=
  let count :=
    foldl (λ count trace, count + get_number_of_peaks trace)%nat 0%nat
          (traces event) in
  let cl := Np.zeros count 8 in
  let '(cl, _, log) := foldl (load_trace pmap corrector) (cl, 0%nat, []) (traces event) in
  ({| event_number := number event; cloud := cl |}, log).
End Load.

(** The body of [for idx, point in enumerate(self.cloud)] in
    [calibrate_z_position]; [point] is a view of row [idx]. *)
Definition calibrate_point (micromegas_tb window_tb detector_length ic_correction : Q)
    (cl : list row) (idx : nat) : result (list row) :=
  match cl !! idx with
  | None => Raise IndexError
  | Some point =>
      q ← Np.divide (window_tb - get point 6) (window_tb - micromegas_tb);
      Ok (set_cell cl idx 2 (q * detector_length - ic_correction)%Q)
  end.

Definition calibrate_z_position (self : PointCloud)
    (micromegas_tb window_tb detector_length ic_correction : Q)
  : result PointCloud :=
  cl ← foldM (calibrate_point micromegas_tb window_tb detector_length ic_correction)
             (cloud self) (seq 0 (length (cloud self)));
  Ok {| event_number := event_number self; cloud := cl |}.

(** [self.cloud[mask]] for
    [mask = np.linalg.norm(self.cloud[:, :3] - point[:3], axis=1) < max_distance] *)
Definition neighborhood (cl : list row) (point : row) (max_distance : Q) : list row :=
  List.filter
    (λ q, Np.norm_lt (Np.subtract (take 3 q) (take 3 point)) max_distance) cl.

(** The body of [for idx, point in enumerate(self.cloud)] in [smooth_cloud]. *)
Definition smooth_point (cl : list row) (max_distance : Q)
    (smoothed_cloud : list row) (idx : nat) : result (list row) :=
  match cl !! idx with
  | None => Raise IndexError
  | Some point =>
      let neighbors := neighborhood cl point max_distance in
      if (length neighbors <? 2)%nat then Ok smoothed_cloud
      else
        weighted_average ←
          Np.average neighbors (map (λ q, get q 3) neighbors);
        if Np.isclose (get weighted_average 4) 0 then Ok smoothed_cloud
        else Ok (<[idx := weighted_average]> smoothed_cloud)
  end.

(** The array after [smoothed_cloud[smoothed_cloud[:, 3] != 0.0]]. *)
Definition smooth_candidates (cl : list row) (max_distance : Q)
  : result (list row) :=
  smoothed_cloud ←
    foldM (smooth_point cl max_distance)
          (Np.zeros (length cl) (Np.ncols cl)) (seq 0 (length cl));
  Ok (List.filter (λ p, negb (Qeq_bool (get p 3) 0)) smoothed_cloud).

(** [np.round(smoothed_cloud[:, :3], decimals=2)], one row. *)
Definition rounded_position (p : row) : list Q := map (Np.round 2) (take 3 p).

Definition smooth_cloud (self : PointCloud) (max_distance : Q)
  : result PointCloud :=
  smoothed_cloud ← smooth_candidates (cloud self) max_distance;
  let indicies := Np.unique_rows_index (map rounded_position smoothed_cloud) in
  cl ← Np.index_rows smoothed_cloud indicies;
  Ok {| event_number := event_number self; cloud := cl |}.

(** [cloud[:, 2]] *)
Definition z_column (cl : list row) : list Q := map (λ p, get p 2) cl.

(** [argsort] stands for [np.argsort] with its default kind. *)
Definition sort_in_z (argsort : list Q → list nat) (self : PointCloud)
  : result PointCloud :=
  let indicies := argsort (z_column (cloud self)) in
  cl ← Np.index_rows (cloud self) indicies;
  Ok {| event_number := event_number self; cloud := cl |}.

(** ** The rows a construction writes *)

(** The point of one peak on a channel that resolved to [pad], before the
    field correction. *)
Definition raw_point (trace : GetTrace) (pad : PadData.t) (peak : Peak) : row :=
  [ PadData.x pad;
    PadData.y pad;
    (centroid peak + PadData.time_offset pad)%Q;
    amplitude peak;
    (integral peak * PadData.gain pad)%Q;
    inject_Z (pad_id (hw_id trace));
    (centroid peak + PadData.time_offset pad)%Q;
    PadData.scale pad ].

(** A channel maps to a pad when both lookups of the loop answer. *)
Definition resolve (pmap : PadMap) (trace : GetTrace) : option (Z * PadData.t) :=
  check ← get_pad_from_hardware pmap (hw_id trace);
  pad ← get_pad_data pmap check;
  Some (check, pad).

Definition total_peaks (event : GetEvent) : nat :=
  sum_list (get_number_of_peaks <$> traces event).

Definition mapped_peaks (pmap : PadMap) (event : GetEvent) : nat :=
  sum_list ((λ trace, if resolve pmap trace is Some _ then get_number_of_peaks trace else 0%nat)
              <$> traces event).

Section Emitted.
Context `{MathLib}.

Definition emitted_point (corrector : option ElectronCorrector)
    (trace : GetTrace) (pad : PadData.t) (peak : Peak) : row :=
  match corrector with
  | Some c => correct_point c (raw_point trace pad peak)
  | None => raw_point trace pad peak
  end.

Definition emitted_rows (pmap : PadMap) (corrector : option ElectronCorrector)
    (trace : GetTrace) : list row :=
  match resolve pmap trace with
  | Some (_, pad) => emitted_point corrector trace pad <$> get_peaks trace
  | None => []
  end.
End Emitted.

(** The row [calibrate_z_position] leaves in place of [point]. *)
Definition calibrated (micromegas_tb window_tb detector_length ic_correction : Q)
    (point : row) : row :=
  <[2 := ((window_tb - get point 6) / (window_tb - micromegas_tb)
          * detector_length - ic_correction)%Q]> point.

(** ** Orders on the records that np.unique sorts *)

(** Two keys are equivalent when neither is less than the other. *)
Definition key_equiv {K : Type} (less : K → K → bool) (a b : K) : Prop :=
  less a b = false ∧ less b a = false.

(** The order a stable sort leaves between a record and a later one: keys
    ascend, and records of equivalent keys keep the order of their
    indices. *)
Definition stable_le {K : Type} (less : K → K → bool) (x y : K * nat) : Prop :=
  less y.1 x.1 = false ∧ (less x.1 y.1 = false → (x.2 < y.2)%nat).

(** ** What one iteration of the smoothing loop decides *)

(** For [point]: nothing ([None], the point is discarded and its row of
    the buffer stays zero), the row written in its place, or the
    exception of np.average. *)
Definition smooth_value (cl : list row) (max_distance : Q) (point : row)
  : result (option row) :=
  let neighbors := neighborhood cl point max_distance in
  if (length neighbors <? 2)%nat then Ok None
  else
    weighted_average ← Np.average neighbors (map (λ q, get q 3) neighbors);
    if Np.isclose (get weighted_average 4) 0 then Ok None
    else Ok (Some weighted_average).

(** The weights of the neighborhood of [point] sum to zero. *)
Definition zero_weight (cl : list row) (max_distance : Q) (point : row) : Prop :=
  (Np.sum (map (λ q, get q 3) (neighborhood cl point max_distance)) == 0)%Q.

(** ** Inputs of the examples *)

(** The pad and the peak of the end-to-end example of the specification. *)
Definition example_pad : PadData.t :=
  {| PadData.x := 10; PadData.y := 0; PadData.time_offset := 5;
     PadData.gain := 2; PadData.scale := 1 |}.

Definition example_peak : Peak :=
  {| centroid := 100; amplitude := 50; integral := 10 |}.

(** A pad map that knows one channel: the electronics address 1 is pad 7. *)
Definition example_pmap : PadMap :=
  {| get_pad_from_hardware := λ hw, if (channel hw =? 1)%Z then Some 7%Z else None;
     get_pad_data := λ p, if (p =? 7)%Z then Some example_pad else None |}.

(** Channel 1 reports the raw pad id 3 and has one peak; channel 2 is not
    in the pad map and has two peaks. *)
Definition example_trace : GetTrace :=
  {| hw_id := {| channel := 1; pad_id := 3 |}; get_peaks := [example_peak] |}.

Definition unmapped_trace : GetTrace :=
  {| hw_id := {| channel := 2; pad_id := 9 |};
     get_peaks := [example_peak; example_peak] |}.

Definition example_event : GetEvent :=
  {| number := 4; traces := [example_trace; unmapped_trace] |}.

(** A cloud before its construction. *)
Definition unset_cloud : PointCloud := {| event_number := -1; cloud := [] |}.

(** A construction without corrector calls no function of the math
    library; the closed examples run it with this placeholder. *)
Definition unused_math : MathLib :=
  {| np_sqrt := λ v, v; np_cos := λ v, v; np_sin := λ v, v;
     np_arctan2 := λ v _, v |}.

(** Two rows have the same key: the same position after np.round to two
    decimals. *)
Definition same_rounded_position (p q : row) : Prop :=
  Forall2 Qeq (rounded_position p) (rounded_position q).

(** Where np.round sees a coordinate on the grid of hundredths: the
    float64 product with 100. *)
Definition scaled (x : Q) : Q := Np.fl (x * 100).

(** The cell of a coordinate on that grid: the integer np.rint answers. *)
Definition cell (x : Q) : Z := Np.rint (scaled x).

(** Two rows lie strictly inside the same cell of the grid of hundredths
    in each of the three spatial fields: each scaled coordinate of both is
    less than a half away from the same integer. *)
Definition same_cell (p q : row) : Prop :=
  ∀ j, (j < 3)%nat →
    ∃ k : Z, (Qabs (scaled (get p j) - inject_Z k) < 1 # 2)%Q
             ∧ (Qabs (scaled (get q j) - inject_Z k) < 1 # 2)%Q.

(** Two pairs of points at one place each, the pairs 0.005625 apart in z.
    The z of the first pair is the double nearest to 1.115, which is a
    little below it; the z of the second is 1.109375. *)
Definition edge_cloud : PointCloud :=
  {| event_number := 4;
     cloud := [ [0; 0; 5021513584518103 # 4503599627370496; 1; 1; 0;
                 5021513584518103 # 4503599627370496; 1];
                [0; 0; 5021513584518103 # 4503599627370496; 1; 1; 1;
                 5021513584518103 # 4503599627370496; 1];
                [0; 0; 71 # 64; 1; 1; 2; 71 # 64; 1];
                [0; 0; 71 # 64; 1; 1; 3; 71 # 64; 1] ]%Q |}.

(** A cloud of five points: two pairs of neighbours and one point far
    from all others. *)
Definition example_cloud : PointCloud :=
  {| event_number := 4;
     cloud := [ [0; 0; 0; 1; 1; 3; 0; 1];
                [0; 0; 1; 3; 1; 3; 1; 1];
                [100; 0; 0; 1; 2; 5; 0; 1];
                [100; 0; 2; 1; 4; 5; 2; 1];
                [500; 0; 0; 7; 1; 8; 0; 1] ]%Q |}.



(** The example cloud after smoothing with radius 10. *)
Definition smoothed_example : PointCloud :=
  {| event_number := 4;
     cloud := [ [0 # 4; 0 # 4; 3 # 4; 10 # 4; 4 # 4; 12 # 4; 3 # 4; 4 # 4];
                [200 # 2; 0 # 2; 2 # 2; 2 # 2; 6 # 2; 10 # 2; 2 # 2; 2 # 2] ]%Q |}.



(** [np.argsort(keys, kind='stable')]: equal keys stay in the order they
    have. *)
Definition stable_argsort (keys : list Q) : list nat :=
  (Np.sort_stable Np.ltb (Np.enumerate keys)).*2.

(** An index sort within the contract of np.argsort that does not keep
    the order of equal keys: the keys are read from the last to the first
    and sorted, so that equal keys come out in the reverse of the order
    they have. *)
Definition last_first_argsort (keys : list Q) : list nat :=
  (Np.sort_stable Np.ltb (reverse (Np.enumerate keys))).*2.

(** Three points of three different z. *)
Definition distinct_z_cloud : PointCloud :=
  {| event_number := 4;
     cloud := [ [0; 0; 30; 1; 1; 0; 30; 1];
                [0; 0; 10; 1; 1; 1; 10; 1];
                [0; 0; 20; 1; 1; 2; 20; 1] ]%Q |}.

(** ** The other methods of PointCloud *)

Section Validity.
(** The sentinel of [constants.py] (not among the sources given here). *)
Context (INVALID_EVENT_NUMBER : Z).

(** [PointCloud()].  The array of a new cloud is [np.empty(0)]: it has
    no row, and one dimension only.  The model keeps the rows of an array
    and not its number of dimensions, so this array and an array of shape
    (0, 8) are the same list.  [calibrate_z_position] and the loaders do
    not tell them apart either; the methods that index a second dimension
    ([smooth_cloud], [sort_in_z], [retrieve_spatial_coordinates]) raise
    IndexError on the array of a cloud that was never loaded, and are
    modelled for the arrays a loader leaves. *)
Definition PointCloud_init : PointCloud :=
  {| event_number := INVALID_EVENT_NUMBER; cloud := [] |}.

Definition is_valid (self : PointCloud) : bool :=
  negb (event_number self =? INVALID_EVENT_NUMBER)%Z.
End Validity.

Definition load_cloud_from_hdf5_data (self : PointCloud) (data : list row)
    (event_number : Z) : PointCloud :=
  {| event_number := event_number; cloud := data |}.

(** [self.cloud[:, 0:3]] *)
Definition retrieve_spatial_coordinates (self : PointCloud) : list row :=
  take 3 <$> cloud self.

(** ** The warnings of a construction *)

(** A channel is warned about when it has a peak and the pad map does not
    know its hardware id. *)
Definition warned (pmap : PadMap) (trace : GetTrace) : bool :=
  negb (get_number_of_peaks trace =? 0)%nat
  && (if get_pad_from_hardware pmap (hw_id trace) is Some _ then false else true).

(** ** phase_1.py: the loop over the events of a run *)

Module Phase1.

(** Modelled from the spec: the progress report a worker sends to the
    coordinator ("a one-way progress-status channel"); the loop sends
    [StatusMessage(run, Phase.CLOUD, 1)]. *)
Inductive Phase : Type := CLOUD.
Record StatusMessage : Type := { msg_run : Z; msg_phase : Phase; msg_progress : Z }.

(** Modelled from the spec: of the configuration the loop reads the two
    drift references and the detector length, and whether the ion chamber
    time is to be corrected. *)
Record DetectorParameters : Type :=
  { micromegas_time_bucket : Q; window_time_bucket : Q; detector_length : Q }.
Record FribParameters : Type := { correct_ic_time : bool }.

(** Modelled from the spec: the auxiliary ion chamber record of an event,
    with its good peak, if it has one, and the time correction it derives
    from a peak (the parameters it is called with are fixed for a run). *)
Record FribEvent : Type :=
  { get_good_ic_peak : option Peak; frib_correct_ic_time : Peak → Q }.

(** A dataset of the output file (h5py): a shape fixed at its creation,
    its attributes and its array. *)
Record Dataset : Type :=
  { shape : nat * nat; attrs : gmap string Q; data : list row }.

(** [a.shape] of the array of a loaded cloud. *)
Definition shape_of (a : list row) : nat * nat := (length a, Np.ncols a).

Inductive error : Type :=
| CloudError (e : exn)    (* raised inside a method of PointCloud *)
| NameExists (n : Z)      (* h5py: create_dataset on a name the group has *)
| ShapeMismatch.          (* h5py: an array that does not fit the dataset *)

(** The loop goes on ([Done]), ends with an exception ([Raised]), or has
    computed a value that is not finite ([NotFiniteData]): the code raises
    nothing then and goes on with inf or nan in the cloud, where the model
    does not follow it. *)
Inductive io (A : Type) : Type :=
| Done (a : A)
| Raised (e : error)
| NotFiniteData.
Arguments Done {A} a.
Arguments Raised {A} e.
Arguments NotFiniteData {A}.

#[global] Instance io_ret : MRet io := @Done.
#[global] Instance io_bind : MBind io :=
  λ A B f m,
    match m with
    | Done a => f a
    | Raised e => Raised e
    | NotFiniteData => NotFiniteData
    end.

Definition lift {A : Type} (r : result A) : io A :=
  match r with
  | Ok a => Done a
  | Raise e => Raised (CloudError e)
  | NotFinite => NotFiniteData
  end.

Fixpoint for_each {A B : Type} (f : A → B → io A) (a : A) (l : list B) : io A :=
  match l with
  | [] => Done a
  | b :: l' => a' ← f a b; for_each f a' l'
  end.

(** [group.create_dataset(name, shape=..., dtype=np.float64)]; the
    datasets of the group are named [cloud_<n>] and kept here under [n]. *)
Definition create_dataset (group : gmap Z Dataset) (n : Z) (sh : nat * nat)
  : io Dataset :=
  match group !! n with
  | Some _ => Raised (NameExists n)
  | None => Done {| shape := sh; attrs := ∅; data := Np.zeros sh.1 sh.2 |}
  end.

(** [dataset.attrs[key] = v] *)
Definition set_attr (key : string) (v : Q) (dataset : Dataset) : Dataset :=
  {| shape := shape dataset; attrs := <[key := v]> (attrs dataset);
     data := data dataset |}.

(** [dataset[:] = a] *)
Definition write_all (a : list row) (dataset : Dataset) : io Dataset :=
  if decide (shape_of a = shape dataset)
  then Done {| shape := shape dataset; attrs := attrs dataset; data := a |}
  else Raised ShapeMismatch.

(** What the loop changes: its counter, the queue of the coordinator, the
    group of the output file and the log. *)
Record state : Type :=
  { count : Z; queue : list StatusMessage; cloud_group : gmap Z Dataset;
    log : list log_entry }.

Section Loop.
Context `{MathLib}.
(** The sentinel of [PointCloud()]. *)
Context (INVALID_EVENT_NUMBER : Z).
Context (run : Z) (pad_map : PadMap) (corrector : ElectronCorrector).
Context (frib_params : FribParameters) (detector_params : DetectorParameters).
Context (flush_val : Z).
(** [GetEvent(event_group[f'evt{idx}_data'], idx, trace_params)] and
    [FribEvent(frib_evt_group[f'evt{idx}_1903'], idx, frib_params)], [None]
    when the group has no such dataset. *)
Context (event_group : Z → option GetEvent) (frib_evt_group : Z → option FribEvent).

Definition tick (st : state) : state :=
  let st :=
    if (flush_val <? count st)%Z
    then {| count := 0; queue := queue st ++ [Build_StatusMessage run CLOUD 1];
            cloud_group := cloud_group st; log := log st |}
    else st in
  {| count := count st + 1; queue := queue st; cloud_group := cloud_group st;
     log := log st |}.

(** The two lines every branch of the body ends with: calibrate, then
    write the array into the dataset; the dataset is in the group under
    the name it was created with. *)
Definition calibrate_and_write (st : state) (log' : list log_entry)
    (pc : PointCloud) (pc_dataset : Dataset) (ic_correction : Q) : io state :=
  pc ← lift (calibrate_z_position pc (micromegas_time_bucket detector_params)
               (window_time_bucket detector_params)
               (detector_length detector_params) ic_correction);
  pc_dataset ← write_all (cloud pc) pc_dataset;
  Done {| count := count st; queue := queue st;
          cloud_group := <[event_number pc := pc_dataset]> (cloud_group st);
          log := log' |}.

Definition body (st : state) (idx : Z) : io state :=
  let st := tick st in
  match event_group idx with
  | None => Done st
  | Some event =>
      let '(pc, warnings) :=
        load_cloud_from_get_event (PointCloud_init INVALID_EVENT_NUMBER)
          event pad_map (Some corrector) in
      let log' := log st ++ warnings in
      pc_dataset ← create_dataset (cloud_group st) (event_number pc)
                     (shape_of (cloud pc));
      let pc_dataset := set_attr "ic_amplitude" (-1) pc_dataset in
      let pc_dataset := set_attr "ic_integral" (-1) pc_dataset in
      let pc_dataset := set_attr "ic_centroid" (-1) pc_dataset in
      match frib_evt_group idx with
      | None => calibrate_and_write st log' pc pc_dataset 0
      | Some frib_event =>
          match get_good_ic_peak frib_event with
          | None => calibrate_and_write st log' pc pc_dataset 0
          | Some ic_peak =>
              let pc_dataset := set_attr "ic_amplitude" (amplitude ic_peak) pc_dataset in
              let pc_dataset := set_attr "ic_integral" (integral ic_peak) pc_dataset in
              let pc_dataset := set_attr "ic_centroid" (centroid ic_peak) pc_dataset in
              if correct_ic_time frib_params
              then calibrate_and_write st log' pc pc_dataset
                     (frib_correct_ic_time frib_event ic_peak)
              else calibrate_and_write st log' pc pc_dataset 0
          end
      end
  end.

(** [range(min_event, max_event+1)] *)
Definition event_range (min_event max_event : Z) : list Z :=
  seqZ min_event (max_event + 1 - min_event).

(** The loop, from [count = 0] and the group just created. *)
Definition start (queue : list StatusMessage) (log : list log_entry) : state :=
  {| count := 0; queue := queue; cloud_group := ∅; log := log |}.

Definition loop (st : state) (min_event max_event : Z) : io state :=
  for_each body st (event_range min_event max_event).

(** The good ion chamber peak of an event, and the shift of z it gives. *)
Definition ic_peak_of (idx : Z) : option Peak :=
  frib_event ← frib_evt_group idx; get_good_ic_peak frib_event.

Definition ic_correction_of (idx : Z) : Q :=
  match frib_evt_group idx with
  | Some frib_event =>
      match get_good_ic_peak frib_event with
      | Some ic_peak =>
          if correct_ic_time frib_params
          then frib_correct_ic_time frib_event ic_peak else 0
      | None => 0
      end
  | None => 0
  end.

(** The cloud and the warnings of an event, as the body builds them. *)
Definition loaded (event : GetEvent) : PointCloud * list log_entry :=
  load_cloud_from_get_event (PointCloud_init INVALID_EVENT_NUMBER)
    event pad_map (Some corrector).

(** An attribute of a dataset: a field of the good peak, or the sentinel. *)
Definition ic_attr (field : Peak → Q) (idx : Z) : Q :=
  from_option field (-1)%Q (ic_peak_of idx).

Definition ic_attrs (idx : Z) (dataset : Dataset) : Prop :=
  attrs dataset !! "ic_amplitude" = Some (ic_attr amplitude idx)
  ∧ attrs dataset !! "ic_integral" = Some (ic_attr integral idx)
  ∧ attrs dataset !! "ic_centroid" = Some (ic_attr centroid idx)
  ∧ ∀ key, key ∉ ["ic_amplitude"; "ic_integral"; "ic_centroid"] →
      attrs dataset !! key = None.

Definition written (idx : Z) (event : GetEvent) (dataset : Dataset) : Prop :=
  data dataset
  = calibrated (micromegas_time_bucket detector_params)
      (window_time_bucket detector_params) (detector_length detector_params)
      (ic_correction_of idx) <$> cloud (loaded event).1
  ∧ shape dataset = shape_of (data dataset)
  ∧ ic_attrs idx dataset.

(** The warnings of the events of a list of indices, in its order. *)
Definition warnings_of (l : list Z) : list log_entry :=
  concat ((λ idx, from_option (λ event, (loaded event).2) [] (event_group idx)) <$> l).
End Loop.

(** A run of three indices around the event of the examples, whose ion
    chamber record has a good peak. *)
Definition example_corrector : ElectronCorrector :=
  {| correction := {| interpolate := λ _ _, [0; 0; 0]%Q |} |}.

Definition example_events (idx : Z) : option GetEvent :=
  if (idx =? 4)%Z then Some example_event else None.

Definition example_frib (idx : Z) : option FribEvent :=
  if (idx =? 4)%Z
  then Some {| get_good_ic_peak := Some example_peak;
               frib_correct_ic_time := λ ic_peak, centroid ic_peak |}
  else None.

Definition example_detector : DetectorParameters :=
  {| micromegas_time_bucket := 50; window_time_bucket := 500;
     detector_length := 1000 |}.

Definition example_loop (st : state) (min_event max_event : Z) : io state :=
  @loop unused_math (-1) 7 example_pmap example_corrector
    {| correct_ic_time := true |} example_detector 0
    example_events example_frib st min_event max_event.

End Phase1.

(* ================================================================== *)
(** * Properties *)

(** ** Construction *)

Section LoadFacts.
Context `{MathLib}.

Lemma zeros_S n m : Np.zeros (S n) m = replicate m 0%Q :: Np.zeros n m.
Proof. reflexivity. Qed.

Lemma zeros_length n m : length (Np.zeros n m) = n.
Proof. apply length_replicate. Qed.

Lemma set_cell_here (W rest : list row) (r : row) j v :
  set_cell (W ++ r :: rest) (length W) j v = W ++ <[j := v]> r :: rest.
Proof.
  unfold set_cell. rewrite alter_app_r_alt by lia.
  rewrite Nat.sub_diag. reflexivity.
Qed.

Lemma load_peak_next corrector trace pad peak (W : list row) k :
  load_peak corrector trace pad (W ++ Np.zeros (S k) 8, length W) peak
  = (W ++ emitted_point corrector trace pad peak :: Np.zeros k 8, S (length W)).
Proof.
  unfold load_peak. rewrite zeros_S.
  rewrite !set_cell_here. cbn [replicate insert list_insert].
  fold (raw_point trace pad peak).
  destruct corrector as [c|]; cbn [emitted_point]; [|reflexivity].
  rewrite alter_app_r_alt by lia. rewrite Nat.sub_diag. reflexivity.
Qed.

Lemma load_peaks_all corrector trace pad peaks : ∀ (W : list row) k,
  foldl (load_peak corrector trace pad)
        (W ++ Np.zeros (length peaks + k) 8, length W) peaks
  = (W ++ (emitted_point corrector trace pad <$> peaks) ++ Np.zeros k 8,
     (length W + length peaks)%nat).
Proof.
  induction peaks as [|peak peaks IH]; intros W k.
  - cbn. f_equal. lia.
  - cbn [foldl length Nat.add]. rewrite load_peak_next.
    specialize (IH (W ++ [emitted_point corrector trace pad peak]) k).
    rewrite length_app in IH. cbn [length] in IH.
    replace (S (length W)) with (length W + 1)%nat by lia.
    rewrite <- app_assoc in IH. cbn [app] in IH. rewrite IH.
    rewrite fmap_cons, <- app_assoc. f_equal; solve [reflexivity | lia].
Qed.

Lemma emitted_rows_length pmap corrector trace :
  length (emitted_rows pmap corrector trace)
  = if resolve pmap trace is Some _ then get_number_of_peaks trace else 0%nat.
Proof.
  unfold emitted_rows. destruct (resolve pmap trace) as [[? ?]|]; [|reflexivity].
  apply length_fmap.
Qed.

Lemma emitted_rows_le pmap corrector trace :
  (length (emitted_rows pmap corrector trace) ≤ get_number_of_peaks trace)%nat.
Proof.
  rewrite emitted_rows_length. destruct (resolve pmap trace); lia.
Qed.

Lemma load_trace_step pmap corrector trace (W : list row) k log :
  ∃ log',
    load_trace pmap corrector
      (W ++ Np.zeros (get_number_of_peaks trace + k) 8, length W, log) trace
    = (W ++ emitted_rows pmap corrector trace
         ++ Np.zeros (get_number_of_peaks trace
                      - length (emitted_rows pmap corrector trace) + k) 8,
       (length W + length (emitted_rows pmap corrector trace))%nat, log').
Proof.
  unfold load_trace, emitted_rows, resolve.
  destruct (Nat.eqb_spec (get_number_of_peaks trace) 0) as [E|E].
  { exists log. unfold get_number_of_peaks in E.
    apply nil_length_inv in E.
    rewrite E. unfold get_number_of_peaks. rewrite E.
    destruct (get_pad_from_hardware pmap (hw_id trace)) as [check|]; cbn;
      [destruct (get_pad_data pmap check); cbn|];
      repeat f_equal; lia. }
  destruct (get_pad_from_hardware pmap (hw_id trace)) as [check|]; cbn.
  - destruct (get_pad_data pmap check) as [pad|]; cbn.
    + exists log. unfold get_number_of_peaks. rewrite load_peaks_all.
      rewrite length_fmap. repeat f_equal. lia.
    + exists log. repeat f_equal; lia.
  - eexists. repeat f_equal; lia.
Qed.

Lemma load_traces_all pmap corrector ts : ∀ (W : list row) k log,
  ∃ log',
    foldl (load_trace pmap corrector)
      (W ++ Np.zeros (sum_list (get_number_of_peaks <$> ts) + k) 8, length W, log) ts
    = (W ++ concat (emitted_rows pmap corrector <$> ts)
         ++ Np.zeros (sum_list (get_number_of_peaks <$> ts)
                      - length (concat (emitted_rows pmap corrector <$> ts)) + k) 8,
       (length W + length (concat (emitted_rows pmap corrector <$> ts)))%nat, log').
Proof.
  induction ts as [|trace ts IH]; intros W k log.
  - exists log. cbn. repeat f_equal; lia.
  - cbn [foldl]. rewrite !fmap_cons.
    set (n := get_number_of_peaks trace).
    set (e := emitted_rows pmap corrector trace).
    set (rest := sum_list (get_number_of_peaks <$> ts)) in *.
    set (es := concat (emitted_rows pmap corrector <$> ts)) in *.
    change (sum_list (n :: (get_number_of_peaks <$> ts))) with (n + rest)%nat.
    change (concat (e :: (emitted_rows pmap corrector <$> ts))) with (e ++ es).
    replace (n + rest + k)%nat with (n + (rest + k))%nat by lia.
    destruct (load_trace_step pmap corrector trace W (rest + k) log) as [log1 E1].
    fold n e in E1. rewrite E1. clear E1.
    assert (Hle : (length e ≤ n)%nat) by apply emitted_rows_le.
    assert (Hle2 : (length es ≤ rest)%nat).
    { clear. subst rest es. induction ts as [|t ts IH]; cbn; [lia|].
      rewrite length_app. pose proof (emitted_rows_le pmap corrector t). lia. }
    destruct (IH (W ++ e) (n - length e + k)%nat log1) as [log2 E2].
    exists log2.
    replace (n - length e + (rest + k))%nat
      with (rest + (n - length e + k))%nat by lia.
    rewrite length_app in E2. rewrite <- app_assoc in E2. rewrite E2.
    rewrite !length_app. rewrite <- !app_assoc.
    replace (n + rest - (length e + length es) + k)%nat
      with (rest - length es + (n - length e + k))%nat by lia.
    replace (length W + (length e + length es))%nat
      with (length W + length e + length es)%nat by lia.
    reflexivity.
Qed.

Lemma count_loop ts : ∀ n,
  foldl (λ count trace, count + get_number_of_peaks trace)%nat n ts
  = (n + sum_list (get_number_of_peaks <$> ts))%nat.
Proof.
  induction ts as [|t ts IH]; intros n; cbn; [lia|]. rewrite IH. lia.
Qed.

Lemma mapped_peaks_emitted pmap corrector event :
  length (concat (emitted_rows pmap corrector <$> traces event))
  = mapped_peaks pmap event.
Proof.
  unfold mapped_peaks. induction (traces event) as [|t ts IH]; cbn; [done|].
  rewrite length_app, IH, emitted_rows_length. reflexivity.
Qed.

(** The array a construction leaves: the rows of the resolved channels in
    the order of the event, then the rows of the pre-sized array that no
    channel wrote. *)
Lemma load_cloud_rows self event pmap corrector :
  cloud (load_cloud_from_get_event self event pmap corrector).1
  = concat (emitted_rows pmap corrector <$> traces event)
      ++ Np.zeros (total_peaks event - mapped_peaks pmap event) 8.
Proof.
  unfold load_cloud_from_get_event. rewrite count_loop. cbn [Nat.add].
  destruct (load_traces_all pmap corrector (traces event) [] 0 []) as [log E].
  cbn [app length] in E. rewrite Nat.add_0_r in E. rewrite E. cbn.
  rewrite mapped_peaks_emitted. unfold total_peaks. f_equal. f_equal. lia.
Qed.

Lemma load_cloud_length self event pmap corrector :
  length (cloud (load_cloud_from_get_event self event pmap corrector).1)
  = total_peaks event.
Proof.
  rewrite load_cloud_rows, length_app, zeros_length, mapped_peaks_emitted.
  assert (mapped_peaks pmap event ≤ total_peaks event)%nat; [|lia].
  unfold mapped_peaks, total_peaks.
  induction (traces event) as [|t ts IH]; cbn; [lia|].
  destruct (resolve pmap t); lia.
Qed.

End LoadFacts.

(** ** Field correction *)

Section CorrectorFacts.
Context `{MathLib}.

Lemma correct_point_length (self : ElectronCorrector) (point : row) :
  length (correct_point self point) = length point.
Proof.
  unfold correct_point. rewrite !length_insert, length_app, length_take,
    length_drop, length_replicate. lia.
Qed.

Lemma correct_point_tail (self : ElectronCorrector) (point : row) :
  drop 3 (correct_point self point) = drop 3 point.
Proof.
  unfold correct_point. rewrite !drop_insert_lt by lia.
  rewrite drop_app, length_take, length_replicate.
  destruct (Nat.le_gt_cases 3 (length point)) as [Hl|Hl].
  - rewrite drop_ge by (rewrite length_take, length_replicate; lia).
    replace (3 - 3 `min` length point)%nat with 0%nat by lia.
    reflexivity.
  - rewrite (drop_ge point) by lia. rewrite drop_nil, app_nil_r.
    apply drop_ge. rewrite length_take, length_replicate. lia.
Qed.

Lemma correct_point_field (self : ElectronCorrector) (point : row) j :
  (3 ≤ j)%nat → get (correct_point self point) j = get point j.
Proof.
  intros Hj. unfold get.
  replace j with (3 + (j - 3))%nat by lia.
  rewrite <- !lookup_drop, correct_point_tail. reflexivity.
Qed.

Lemma emitted_point_pad_id corrector trace pad peak :
  get (emitted_point corrector trace pad peak) 5 = inject_Z (pad_id (hw_id trace)).
Proof.
  destruct corrector as [c|]; cbn [emitted_point]; [|reflexivity].
  rewrite correct_point_field by lia. reflexivity.
Qed.

End CorrectorFacts.

(** ** Calibration *)

Lemma divide_nonzero a b : ¬ (b == 0)%Q → Np.divide a b = Ok (a / b)%Q.
Proof.
  intros Hb. unfold Np.divide.
  destruct (Qeq_bool b 0) eqn:E; [|reflexivity].
  apply Qeq_bool_iff in E. contradiction.
Qed.

Lemma divide_zero a b : (b == 0)%Q → Np.divide a b = NotFinite.
Proof.
  intros Hb. unfold Np.divide. apply Qeq_bool_iff in Hb. rewrite Hb. reflexivity.
Qed.

Lemma calibrate_point_here m w L ic (done todo : list row) (point : row) :
  ¬ (w == m)%Q →
  calibrate_point m w L ic (done ++ point :: todo) (length done)
  = Ok (done ++ calibrated m w L ic point :: todo).
Proof.
  intros Hne. unfold calibrate_point.
  rewrite list_lookup_middle by reflexivity.
  rewrite divide_nonzero by (intros E; apply Hne; lra).
  cbn. rewrite set_cell_here. reflexivity.
Qed.

Lemma calibrate_loop m w L ic : ¬ (w == m)%Q → ∀ todo done : list row,
  foldM (calibrate_point m w L ic) (done ++ todo)
        (seq (length done) (length todo))
  = Ok (done ++ (calibrated m w L ic <$> todo)).
Proof.
  intros Hne. induction todo as [|point todo IH]; intros done.
  - reflexivity.
  - cbn [length seq foldM]. rewrite calibrate_point_here by assumption.
    cbn [mbind result_bind].
    specialize (IH (done ++ [calibrated m w L ic point])).
    rewrite length_app, <- !app_assoc in IH. cbn [length app] in IH.
    rewrite Nat.add_1_r in IH. rewrite IH, fmap_cons. reflexivity.
Qed.

Lemma calibrate_loop_zero m w L ic (point : row) (todo : list row) :
  (w == m)%Q →
  foldM (calibrate_point m w L ic) (point :: todo) (seq 0 (S (length todo)))
  = NotFinite.
Proof.
  intros Heq. cbn [seq foldM]. unfold calibrate_point. cbn [lookup list_lookup].
  rewrite divide_zero by lra. reflexivity.
Qed.

Lemma calibrate_z_position_ok (self : PointCloud) (m w L ic : Q) :
  ¬ (w == m)%Q →
  calibrate_z_position self m w L ic
  = Ok {| event_number := event_number self;
          cloud := calibrated m w L ic <$> cloud self |}.
Proof.
  intros Hne. unfold calibrate_z_position.
  pose proof (calibrate_loop m w L ic Hne (cloud self) []) as E0.
  cbn [app length] in E0. rewrite E0. reflexivity.
Qed.

Lemma calibrated_z m w L ic (point : row) :
  (2 < length point)%nat →
  get (calibrated m w L ic point) 2
  = ((w - get point 6) / (w - m) * L - ic)%Q.
Proof.
  intros Hl. unfold calibrated. unfold get at 1.
  rewrite list_lookup_insert_eq by lia. reflexivity.
Qed.


(* ------------------------------------------------------------------ *)
(** ** The claims on construction, correction and calibration *)

(** C1.  The claim: the array of a constructed cloud has as many rows as
    there are peaks on the channels that map to a pad.  The code pre-sizes
    the array to the peaks of all channels and never trims it: on the
    example event (one mapped channel with one peak, one unmapped channel
    with two) one peak is mapped and the array has three rows, the last
    two all zero. *)
Theorem load_cloud_keeps_unmapped_rows `{MathLib} (self : PointCloud) :
  let pc := (load_cloud_from_get_event self example_event example_pmap None).1 in
  mapped_peaks example_pmap example_event = 1%nat
  ∧ length (cloud pc) = 3%nat
  ∧ cloud pc = [ [10; 0; 105; 50; 20; 3; 105; 1];
                 [0; 0; 0; 0; 0; 0; 0; 0];
                 [0; 0; 0; 0; 0; 0; 0; 0] ]%Q.
Proof. split; [|split]; reflexivity. Qed.

(** C2.  The claim: when the pad map resolves a channel to a pad id other
    than the raw one, the points of the channel carry the resolved id in
    field 5.  The code stores [trace.hw_id.pad_id]: the example channel
    reports pad 3, resolves to pad 7, and its point carries 3. *)
Theorem load_cloud_stores_raw_pad_id `{MathLib} (self : PointCloud) :
  let pc := (load_cloud_from_get_event self example_event example_pmap None).1 in
  pad_id (hw_id example_trace) = 3%Z
  ∧ get_pad_from_hardware example_pmap (hw_id example_trace) = Some 7%Z
  ∧ ∃ point, cloud pc !! 0%nat = Some point
             ∧ get point 5 = inject_Z 3
             ∧ ¬ (get point 5 == inject_Z 7)%Q.
Proof.
  split; [reflexivity|]. split; [reflexivity|].
  eexists. split; [reflexivity|]. split; [reflexivity|].
  intros E. discriminate E.
Qed.

(** C3.  The end-to-end example: a channel on the pad
    (x=10, y=0, time_offset=5, gain=2, scale=1) with the one peak
    (centroid=100, amplitude=50, integral=10) and no corrector gives the
    point [10, 0, 105, 50, 20, pad_id, 105, 1]; calibrating with
    micromegas 50, window 500, length 1000 and no ion chamber correction
    sets its z to (500 - 105) / (500 - 50) * 1000 = 7900/9, which is
    877.78 to two decimals. *)
Theorem end_to_end_example `{MathLib} (self : PointCloud) (pmap : PadMap)
    (hw : HardwareID) (check : Z) (n : Z) :
  get_pad_from_hardware pmap hw = Some check →
  get_pad_data pmap check = Some example_pad →
  let event :=
    {| number := n;
       traces := [ {| hw_id := hw; get_peaks := [example_peak] |} ] |} in
  let pc := (load_cloud_from_get_event self event pmap None).1 in
  cloud pc = [ [10; 0; 105; 50; 20; inject_Z (pad_id hw); 105; 1] ]%Q
  ∧ ∃ z : Q,
      calibrate_z_position pc 50 500 1000 0
      = Ok {| event_number := n;
              cloud := [ [10; 0; z; 50; 20; inject_Z (pad_id hw); 105; 1] ]%Q |}
      ∧ (z == (500 - 105) / (500 - 50) * 1000)%Q
      ∧ (Qabs (z - 877.78) <= 0.005)%Q.
Proof.
  intros Hhw Hpad event pc.
  assert (Hpc : pc = {| event_number := n;
                        cloud := [ [10; 0; 105; 50; 20; inject_Z (pad_id hw); 105; 1] ]%Q |}).
  { subst pc event. unfold load_cloud_from_get_event, load_trace. cbn.
    rewrite Hhw, Hpad. reflexivity. }
  rewrite Hpc. split; [reflexivity|].
  exists (395000 # 450)%Q. split; [reflexivity|].
  split; [reflexivity|]. apply Qle_bool_iff. reflexivity.
Qed.

Lemma end_to_end_example_witness :
  let pc := (@load_cloud_from_get_event unused_math unset_cloud
               {| number := 4; traces := [example_trace] |} example_pmap None).1 in
  cloud pc = [ [10; 0; 105; 50; 20; 3; 105; 1] ]%Q
  ∧ ∃ z : Q,
      calibrate_z_position pc 50 500 1000 0
      = Ok {| event_number := 4;
              cloud := [ [10; 0; z; 50; 20; 3; 105; 1] ]%Q |}
      ∧ (z == (500 - 105) / (500 - 50) * 1000)%Q
      ∧ (Qabs (z - 877.78) <= 0.005)%Q.
Proof.
  exact (@end_to_end_example unused_math unset_cloud example_pmap
           {| channel := 1; pad_id := 3 |} 7%Z 4%Z eq_refl eq_refl).
Defined.

(** C4.  With distinct time references, calibration replaces field 2 of
    every point by
    ((window - field 6) / (window - micromegas)) * length - ic_correction
    and nothing else; so two points of equal raw time (field 6) get equal
    z. *)
Theorem calibrate_z_position_formula (self : PointCloud) (m w L ic : Q) :
  ¬ (w == m)%Q →
  calibrate_z_position self m w L ic
  = Ok {| event_number := event_number self;
          cloud := (λ point,
                      <[2%nat := ((w - get point 6) / (w - m) * L - ic)%Q]> point)
                   <$> cloud self |}
  ∧ ∀ self' i j p q p' q',
      calibrate_z_position self m w L ic = Ok self' →
      cloud self !! i = Some p → cloud self !! j = Some q →
      cloud self' !! i = Some p' → cloud self' !! j = Some q' →
      length p = 8%nat → length q = 8%nat →
      (get p 6 == get q 6)%Q → (get p' 2 == get q' 2)%Q.
Proof.
  intros Hne.
  assert (E : calibrate_z_position self m w L ic
              = Ok {| event_number := event_number self;
                      cloud := calibrated m w L ic <$> cloud self |}).
  { apply calibrate_z_position_ok, Hne. }
  split; [exact E|].
  intros self' i j p q p' q' E' Hp Hq Hp' Hq' Lp Lq Heq.
  rewrite E in E'. injection E' as <-. cbn [cloud] in Hp', Hq'.
  rewrite list_lookup_fmap, Hp in Hp'. rewrite list_lookup_fmap, Hq in Hq'.
  cbn in Hp', Hq'. injection Hp' as <-. injection Hq' as <-.
  rewrite !calibrated_z by lia. rewrite Heq. reflexivity.
Qed.

Lemma calibrate_z_position_formula_witness :
  let self := {| event_number := 4;
                 cloud := [ [10; 0; 105; 50; 20; 3; 105; 1];
                            [12; 1; 105; 40; 10; 5; 105; 1] ]%Q |} in
  ¬ (500 == 50)%Q
  ∧ ∃ self', calibrate_z_position self 50 500 1000 0 = Ok self'
             ∧ cloud self' = [ [10; 0; 395000 # 450; 50; 20; 3; 105; 1];
                               [12; 1; 395000 # 450; 40; 10; 5; 105; 1] ]%Q.
Proof.
  intros self.
  assert (Hne : ¬ (500 == 50)%Q) by (intros E; discriminate E).
  split; [exact Hne|].
  eexists. split.
  - exact (proj1 (calibrate_z_position_formula self 50 500 1000 0 Hne)).
  - reflexivity.
Defined.

(** C5.  The field correction changes at most the first three fields of a
    point: the corrected point has the length of the point, and its
    fields from the fourth on (amplitude, integral, pad id, raw time,
    scale) are those of the point. *)
Theorem correct_point_keeps_fields_3_to_7 `{MathLib}
    (self : ElectronCorrector) (point : row) :
  length (correct_point self point) = length point
  ∧ drop 3 (correct_point self point) = drop 3 point
  ∧ get (correct_point self point) 3 = get point 3
  ∧ get (correct_point self point) 4 = get point 4
  ∧ get (correct_point self point) 5 = get point 5
  ∧ get (correct_point self point) 6 = get point 6
  ∧ get (correct_point self point) 7 = get point 7.
Proof.
  split; [apply correct_point_length|].
  split; [apply correct_point_tail|].
  repeat split; apply correct_point_field; lia.
Qed.

(** C10.  Calibration divides by (window - micromegas) with no guard.
    With references that differ it returns on every cloud, with a z for
    every point.  With equal references nothing stops it either: it raises
    nothing, and as soon as the cloud has a point the quotient by zero is
    computed, so that the method returns with a z that is not finite; only
    on a cloud without points, where the loop does nothing, do equal
    references go unnoticed. *)
Theorem calibrate_z_position_total (self : PointCloud) (m w L ic : Q) :
  (¬ (w == m)%Q →
     ∃ self', calibrate_z_position self m w L ic = Ok self'
              ∧ length (cloud self') = length (cloud self))
  ∧ ((w == m)%Q →
       (cloud self ≠ [] → calibrate_z_position self m w L ic = NotFinite)
       ∧ (cloud self = [] →
            calibrate_z_position self m w L ic
            = Ok {| event_number := event_number self; cloud := [] |})).
Proof.
  split.
  - intros Hwm. eexists. split; [apply calibrate_z_position_ok, Hwm|].
    cbn [cloud]. apply length_fmap.
  - intros Hwm. unfold calibrate_z_position. split.
    + intros Hne. destruct (cloud self) as [|point todo]; [congruence|].
      cbn [length]. rewrite calibrate_loop_zero by assumption. reflexivity.
    + intros ->. reflexivity.
Qed.

Lemma calibrate_z_position_total_witness :
  (∃ self', calibrate_z_position
              {| event_number := 4; cloud := [ [10; 0; 105; 50; 20; 3; 105; 1] ]%Q |}
              50 500 1000 0 = Ok self'
            ∧ length (cloud self') = 1%nat)
  ∧ calibrate_z_position
      {| event_number := 4; cloud := [ [10; 0; 105; 50; 20; 3; 105; 1] ]%Q |}
      50 50 1000 0 = NotFinite
  ∧ calibrate_z_position {| event_number := 4; cloud := [] |} 50 50 1000 0
    = Ok {| event_number := 4; cloud := [] |}.
Proof.
  split; [|split].
  - apply (proj1 (calibrate_z_position_total
                    {| event_number := 4;
                       cloud := [ [10; 0; 105; 50; 20; 3; 105; 1] ]%Q |}
                    50 500 1000 0)).
    intros E. discriminate E.
  - apply (proj2 (calibrate_z_position_total
                    {| event_number := 4;
                       cloud := [ [10; 0; 105; 50; 20; 3; 105; 1] ]%Q |}
                    50 50 1000 0)); [reflexivity|discriminate].
  - apply (proj2 (calibrate_z_position_total
                    {| event_number := 4; cloud := [] |} 50 50 1000 0));
      reflexivity.
Defined.

(* ------------------------------------------------------------------ *)
(** ** np.unique: the stable sort and the heads of the runs *)

Section Unique1dFacts.
Context {K : Type} (less eqb : K → K → bool).
Hypothesis less_irrefl : ∀ a, less a a = false.
Hypothesis less_trans :
  ∀ a b c, less a b = true → less b c = true → less a c = true.
Hypothesis less_ntrans :
  ∀ a b c, less a b = false → less b c = false → less a c = false.
Hypothesis eqb_equiv : ∀ a b, eqb a b = true ↔ key_equiv less a b.

Lemma less_asym a b : less a b = true → less b a = false.
Proof.
  intros Hab. destruct (less b a) eqn:Hba; [|reflexivity].
  pose proof (less_trans _ _ _ Hab Hba) as E. rewrite less_irrefl in E.
  discriminate.
Qed.

Lemma key_equiv_refl a : key_equiv less a a.
Proof. split; apply less_irrefl. Qed.

Lemma key_equiv_sym a b : key_equiv less a b → key_equiv less b a.
Proof. intros [? ?]. split; assumption. Qed.

Lemma key_equiv_trans a b c :
  key_equiv less a b → key_equiv less b c → key_equiv less a c.
Proof. intros [? ?] [? ?]. split; eapply less_ntrans; eassumption. Qed.

Lemma less_equiv_l a b c :
  key_equiv less a b → less a c = true → less b c = true.
Proof.
  intros [Hab Hba] Hac. destruct (less b c) eqn:Hbc; [reflexivity|].
  rewrite (less_ntrans _ _ _ Hab Hbc) in Hac. discriminate.
Qed.

Lemma insert_stable_perm x l : Np.insert_stable less x l ≡ₚ x :: l.
Proof.
  induction l as [|y l IH]; cbn; [reflexivity|].
  destruct (less y.1 x.1); [|reflexivity].
  rewrite IH. apply Permutation_swap.
Qed.

Lemma sort_stable_perm l : Np.sort_stable less l ≡ₚ l.
Proof.
  induction l as [|x l IH]; cbn; [reflexivity|].
  rewrite insert_stable_perm, IH. reflexivity.
Qed.

Lemma insert_stable_sorted x s :
  StronglySorted (stable_le less) s →
  Forall (λ y, (x.2 < y.2)%nat) s →
  StronglySorted (stable_le less) (Np.insert_stable less x s).
Proof.
  induction s as [|y s IH]; intros Hs Hx; cbn.
  - repeat constructor.
  - apply StronglySorted_inv in Hs as [Hs Hy].
    apply Forall_cons in Hx as [Hxy Hx].
    destruct (less y.1 x.1) eqn:Hyx.
    + constructor; [apply IH; assumption|].
      rewrite insert_stable_perm. constructor; [|assumption].
      split; [apply less_asym, Hyx|].
      intros E. rewrite E in Hyx. discriminate.
    + constructor; [constructor; assumption|].
      constructor.
      * split; [assumption|]. intros _. exact Hxy.
      * rewrite Forall_forall in Hy, Hx |- *. intros z Hz.
        destruct (Hy z Hz) as [Hzy _]. split.
        -- eapply less_ntrans; eassumption.
        -- intros _. apply Hx, Hz.
Qed.

Lemma sort_stable_sorted l :
  StronglySorted (λ x y : K * nat, (x.2 < y.2)%nat) l →
  StronglySorted (stable_le less) (Np.sort_stable less l).
Proof.
  induction l as [|x l IH]; intros Hl; [constructor|].
  change (Np.sort_stable less (x :: l))
    with (Np.insert_stable less x (Np.sort_stable less l)).
  apply StronglySorted_inv in Hl as [Hl Hx].
  apply insert_stable_sorted; [apply IH, Hl|].
  rewrite sort_stable_perm. exact Hx.
Qed.

(** Whatever the order of the records, the keys come out ascending. *)
Lemma insert_stable_ascending x s :
  StronglySorted (λ a b : K * nat, less b.1 a.1 = false) s →
  StronglySorted (λ a b : K * nat, less b.1 a.1 = false) (Np.insert_stable less x s).
Proof.
  induction s as [|y s IH]; intros Hs; cbn.
  - repeat constructor.
  - apply StronglySorted_inv in Hs as [Hs Hy].
    destruct (less y.1 x.1) eqn:Hyx.
    + constructor; [apply IH, Hs|].
      rewrite insert_stable_perm. constructor; [|exact Hy].
      apply less_asym, Hyx.
    + constructor; [constructor; assumption|].
      constructor; [exact Hyx|].
      eapply Forall_impl; [exact Hy|]. intros z Hz. cbn in Hz.
      eapply less_ntrans; eassumption.
Qed.

Lemma sort_stable_ascending l :
  StronglySorted (λ a b : K * nat, less b.1 a.1 = false) (Np.sort_stable less l).
Proof.
  induction l as [|x l IH]; [constructor|].
  change (Np.sort_stable less (x :: l))
    with (Np.insert_stable less x (Np.sort_stable less l)).
  apply insert_stable_ascending, IH.
Qed.

(** The heads of the runs of a sorted list [t] whose records are all at
    least [prev]: they are records of [t], each above [prev], with
    strictly ascending keys; a head has the least index of its run; and
    every record of [t] is equivalent to [prev] or to a head. *)
Lemma run_heads_spec t : ∀ prev,
  StronglySorted (stable_le less) t →
  Forall (λ z, less z.1 prev = false) t →
  let U := Np.run_heads eqb prev t in
  (∀ u, u ∈ U → u ∈ t)
  ∧ Forall (λ u, less prev u.1 = true) U
  ∧ StronglySorted (λ u v, less u.1 v.1 = true) U
  ∧ (∀ u v, u ∈ U → v ∈ t → key_equiv less v.1 u.1 → (u.2 ≤ v.2)%nat)
  ∧ (∀ v, v ∈ t → key_equiv less v.1 prev ∨ ∃ u, u ∈ U ∧ key_equiv less u.1 v.1).
Proof.
  induction t as [|y t IH]; intros prev Hs Hp; cbn.
  { repeat split; try constructor; intros; exfalso; eapply not_elem_of_nil; eassumption. }
  apply StronglySorted_inv in Hs as [Hs Hy].
  apply Forall_cons in Hp as [Hyp Hp].
  assert (Hty : Forall (λ z, less z.1 y.1 = false) t).
  { eapply Forall_impl; [exact Hy|]. intros z [Hz _]. exact Hz. }
  destruct (IH y.1 Hs Hty) as (Hin & Habove & Hsorted & Hfirst & Hcover).
  clear IH.
  assert (Hnot : ∀ u, u ∈ Np.run_heads eqb y.1 t → ¬ key_equiv less y.1 u.1).
  { intros u Hu [E _]. rewrite Forall_forall in Habove.
    rewrite (Habove u Hu) in E. discriminate. }
  destruct (eqb y.1 prev) eqn:Heq.
  - apply eqb_equiv in Heq.
    split; [intros u Hu; right; apply Hin, Hu|].
    split; [eapply Forall_impl; [exact Habove|]; intros u Hu;
            eapply less_equiv_l; eassumption|].
    split; [exact Hsorted|].
    split.
    + intros u v Hu Hv Hvu. apply elem_of_cons in Hv as [->|Hv].
      * exfalso. eapply Hnot; eassumption.
      * eapply Hfirst; eassumption.
    + intros v Hv. apply elem_of_cons in Hv as [->|Hv]; [left; exact Heq|].
      destruct (Hcover v Hv) as [E|E]; [|right; exact E].
      left. eapply key_equiv_trans; eassumption.
  - assert (Hpy : less prev y.1 = true).
    { destruct (less prev y.1) eqn:E; [reflexivity|].
      assert (eqb y.1 prev = true) as E'
        by (apply eqb_equiv; split; assumption).
      rewrite E' in Heq. discriminate. }
    split.
    { intros u Hu. apply elem_of_cons in Hu as [->|Hu];
        [left | right; apply Hin, Hu]. }
    split.
    { constructor; [exact Hpy|].
      eapply Forall_impl; [exact Habove|]. intros u Hu.
      eapply less_trans; eassumption. }
    split; [constructor; assumption|].
    split.
    + intros u v Hu Hv Hvu.
      apply elem_of_cons in Hu as [->|Hu]; apply elem_of_cons in Hv as [->|Hv].
      * lia.
      * rewrite Forall_forall in Hy. destruct (Hy v Hv) as [_ Hlt].
        destruct Hvu as [_ Hyv]. specialize (Hlt Hyv). lia.
      * exfalso. eapply Hnot; eassumption.
      * eapply Hfirst; eassumption.
    + intros v Hv. right. apply elem_of_cons in Hv as [->|Hv].
      * exists y. split; [left|apply key_equiv_refl].
      * destruct (Hcover v Hv) as [E|(u & Hu & E)].
        -- exists y. split; [left|apply key_equiv_sym, E].
        -- exists u. split; [right; exact Hu|exact E].
Qed.

Lemma elem_of_enumerate_from (ar : list K) : ∀ s k i,
  (k, i) ∈ zip ar (seq s (length ar)) ↔ (s ≤ i)%nat ∧ ar !! (i - s)%nat = Some k.
Proof.
  induction ar as [|a ar IH]; intros s k i; cbn [length seq zip zip_with].
  - split; [intros Hin; exfalso; eapply not_elem_of_nil, Hin|].
    intros [_ E]. discriminate.
  - rewrite elem_of_cons. fold (zip ar (seq (S s) (length ar))).
    rewrite IH. split.
    + intros [E|[Hle E]].
      * injection E as -> ->. rewrite Nat.sub_diag. split; [lia|reflexivity].
      * split; [lia|]. replace (i - s)%nat with (S (i - S s)) by lia. exact E.
    + intros [Hle E]. destruct (decide (i = s)) as [->|Hne].
      * left. rewrite Nat.sub_diag in E. cbn in E. congruence.
      * right. split; [lia|].
        replace (i - s)%nat with (S (i - S s)) in E by lia. exact E.
Qed.

Lemma elem_of_enumerate (ar : list K) k i :
  (k, i) ∈ Np.enumerate ar ↔ ar !! i = Some k.
Proof.
  unfold Np.enumerate. rewrite elem_of_enumerate_from, Nat.sub_0_r.
  split; [intros [_ E]; exact E | intros E; split; [lia | exact E]].
Qed.

Lemma enumerate_ascending_from (ar : list K) : ∀ s,
  StronglySorted (λ x y : K * nat, (x.2 < y.2)%nat) (zip ar (seq s (length ar))).
Proof.
  induction ar as [|a ar IH]; intros s; cbn [length seq zip zip_with];
    constructor; [apply IH|].
  fold (zip ar (seq (S s) (length ar))).
  apply Forall_forall. intros [k i] Hin.
  apply elem_of_enumerate_from in Hin as [Hle _]. cbn. lia.
Qed.

(** What np.unique returns, as records (key, first index): they are
    records of the array, their keys ascend strictly, each has the least
    index among the records of an equivalent key, and every key of the
    array is equivalent to one of them. *)
Lemma unique1d_spec (ar : list K) :
  let U := Np.unique1d less eqb ar in
  (∀ k i, (k, i) ∈ U → ar !! i = Some k)
  ∧ StronglySorted (λ u v, less u.1 v.1 = true) U
  ∧ (∀ k i k' j, (k, i) ∈ U → ar !! j = Some k' →
       key_equiv less k' k → (i ≤ j)%nat)
  ∧ (∀ k' j, ar !! j = Some k' → ∃ k i, (k, i) ∈ U ∧ key_equiv less k k').
Proof.
  unfold Np.unique1d.
  pose proof (sort_stable_perm (Np.enumerate ar)) as Hperm.
  pose proof (sort_stable_sorted _ (enumerate_ascending_from ar 0)) as Hsorted.
  fold (Np.enumerate ar) in Hsorted.
  assert (Hmem : ∀ k i, (k, i) ∈ Np.sort_stable less (Np.enumerate ar)
                        ↔ ar !! i = Some k).
  { intros k i. rewrite Hperm. apply elem_of_enumerate. }
  destruct (Np.sort_stable less (Np.enumerate ar)) as [|y t]; cbn zeta.
  { split; [intros k i Hin; exfalso; eapply not_elem_of_nil, Hin|].
    split; [constructor|].
    split; [intros k i k' j Hin; exfalso; eapply not_elem_of_nil, Hin|].
    intros k' j E. apply Hmem in E. exfalso. eapply not_elem_of_nil, E. }
  apply StronglySorted_inv in Hsorted as [Hs Hy].
  assert (Hty : Forall (λ z, less z.1 y.1 = false) t).
  { eapply Forall_impl; [exact Hy|]. intros z [Hz _]. exact Hz. }
  destruct (run_heads_spec t y.1 Hs Hty) as (Hin & Habove & Hstrict & Hfirst & Hcover).
  assert (Hnot : ∀ u, u ∈ Np.run_heads eqb y.1 t → ¬ key_equiv less y.1 u.1).
  { intros u Hu [E _]. rewrite Forall_forall in Habove.
    rewrite (Habove u Hu) in E. discriminate. }
  split.
  { intros k i Hu. apply Hmem. apply elem_of_cons in Hu as [->|Hu];
      [left | right; apply Hin, Hu]. }
  split; [constructor; assumption|].
  split.
  - intros k i k' j Hu E Hequiv. apply Hmem in E.
    apply elem_of_cons in Hu as [Hu|Hu]; apply elem_of_cons in E as [E|E].
    + rewrite <- Hu in E. injection E as _ ->. lia.
    + rewrite Forall_forall in Hy. destruct (Hy _ E) as [_ Hlt].
      subst y. cbn in Hlt. destruct Hequiv as [_ Hyv]. specialize (Hlt Hyv). lia.
    + exfalso. eapply (Hnot _ Hu). subst y. cbn. exact Hequiv.
    + apply (Hfirst _ _ Hu E). exact Hequiv.
  - intros k' j E. apply Hmem in E. apply elem_of_cons in E as [E|E].
    + exists y.1, y.2. split; [rewrite <- surjective_pairing; left|].
      subst y. apply key_equiv_refl.
    + destruct (Hcover _ E) as [Heq|(u & Hu & Heq)].
      * exists y.1, y.2. split; [rewrite <- surjective_pairing; left|].
        apply key_equiv_sym, Heq.
      * exists u.1, u.2. split; [rewrite <- surjective_pairing; right; exact Hu|].
        exact Heq.
Qed.

End Unique1dFacts.

(** ** The order of the rows: field by field *)

Lemma ltb_lt x y : Np.ltb x y = true ↔ (x < y)%Q.
Proof.
  unfold Np.ltb. rewrite negb_true_iff. split.
  - intros E. apply Qnot_le_lt. intros Hle. apply Qle_bool_iff in Hle. congruence.
  - intros Hlt. destruct (Qle_bool y x) eqn:E; [|reflexivity].
    apply Qle_bool_iff in E. lra.
Qed.

Lemma ltb_ge x y : Np.ltb x y = false ↔ (y <= x)%Q.
Proof.
  unfold Np.ltb. rewrite negb_false_iff. apply Qle_bool_iff.
Qed.

Lemma Qeq_bool_false x y : Qeq_bool x y = false ↔ ¬ (x == y)%Q.
Proof.
  split.
  - intros E Heq. apply Qeq_bool_iff in Heq. congruence.
  - intros Hne. destruct (Qeq_bool x y) eqn:E; [|reflexivity].
    apply Qeq_bool_iff in E. contradiction.
Qed.

(** The comparison of [Np.norm_lt] is the comparison of the Euclidean
    norm with the radius, on the reals. *)
Lemma sum_squares_nonneg (d : list Q) : (0 <= Np.sum (map (λ x, x * x) d))%Q.
Proof.
  induction d as [|x d IH]; cbn [map Np.sum foldr]; [lra|].
  fold (Np.sum (map (λ x, x * x)%Q d)).
  assert (0 <= x * x)%Q by nra. lra.
Qed.

Lemma norm_lt_sqrt (d : list Q) (m : Q) :
  Np.norm_lt d m = true
  ↔ (sqrt (Q2R (Np.sum (map (λ x, x * x)%Q d))) < Q2R m)%R.
Proof.
  unfold Np.norm_lt. rewrite andb_true_iff, !ltb_lt.
  pose proof (sum_squares_nonneg d) as Hs.
  set (s := Np.sum _) in *.
  assert (Q0 : Q2R 0 = 0%R) by (unfold Q2R; cbn; Lra.lra).
  apply Qle_Rle in Hs. rewrite Q0 in Hs.
  split.
  - intros [Hm Hlt]. apply Qlt_Rlt in Hm, Hlt. rewrite Q0 in Hm.
    rewrite Q2R_mult in Hlt.
    rewrite <- (sqrt_square (Q2R m)) by Lra.lra.
    apply sqrt_lt_1; [exact Hs | Lra.nra | exact Hlt].
  - intros Hlt. pose proof (sqrt_pos (Q2R s)) as Hp.
    pose proof (sqrt_sqrt (Q2R s) Hs) as Hsq.
    split; apply Rlt_Qlt.
    + rewrite Q0. Lra.lra.
    + rewrite Q2R_mult. Lra.nra.
Qed.

Lemma row_less_cons_true x y a b :
  Np.row_less (x :: a) (y :: b) = true
  ↔ (x < y)%Q ∨ ((x == y)%Q ∧ Np.row_less a b = true).
Proof.
  cbn [Np.row_less]. rewrite orb_true_iff, andb_true_iff, ltb_lt, Qeq_bool_iff.
  reflexivity.
Qed.

Lemma row_less_cons_false x y a b :
  Np.row_less (x :: a) (y :: b) = false
  ↔ (y < x)%Q ∨ ((x == y)%Q ∧ Np.row_less a b = false).
Proof.
  cbn [Np.row_less]. rewrite orb_false_iff, andb_false_iff, ltb_ge, Qeq_bool_false.
  split.
  - intros [Hle [Hne|E]].
    + left. destruct (Qlt_le_dec y x) as [?|Hle']; [assumption|].
      exfalso. apply Hne. lra.
    + destruct (Qlt_le_dec y x) as [?|Hle']; [left; assumption|].
      right. split; [lra | exact E].
  - intros [Hlt|[Heq E]].
    + split; [lra|]. left. lra.
    + split; [lra|]. right. exact E.
Qed.

Lemma row_less_irrefl a : Np.row_less a a = false.
Proof.
  induction a as [|x a IH]; [reflexivity|].
  apply row_less_cons_false. right. split; [reflexivity | exact IH].
Qed.

Lemma row_less_trans a : ∀ b c,
  Np.row_less a b = true → Np.row_less b c = true → Np.row_less a c = true.
Proof.
  induction a as [|x a IH]; intros [|y b] [|z c]; try (cbn; congruence).
  rewrite !row_less_cons_true. intros [H1|[H1 L1]] [H2|[H2 L2]].
  - left. lra.
  - left. lra.
  - left. lra.
  - right. split; [lra|]. eapply IH; eassumption.
Qed.

Lemma row_less_ntrans a : ∀ b c,
  Np.row_less a b = false → Np.row_less b c = false → Np.row_less a c = false.
Proof.
  induction a as [|x a IH]; intros [|y b] [|z c]; try (cbn; congruence).
  rewrite !row_less_cons_false. intros [H1|[H1 L1]] [H2|[H2 L2]].
  - left. lra.
  - left. lra.
  - left. lra.
  - right. split; [lra|]. eapply IH; eassumption.
Qed.

Lemma row_eqb_equiv a : ∀ b,
  Np.row_eqb a b = true ↔ key_equiv Np.row_less a b.
Proof.
  unfold key_equiv.
  induction a as [|x a IH]; intros [|y b]; cbn [Np.row_eqb].
  - split; [intros _; split; reflexivity | reflexivity].
  - split; [discriminate | intros [E _]; discriminate E].
  - split; [discriminate | intros [_ E]; discriminate E].
  - rewrite andb_true_iff, Qeq_bool_iff, IH, !row_less_cons_false. split.
    + intros [Heq [L1 L2]]. split; right; (split; [lra | assumption]).
    + intros [[H1|[H1 L1]] [H2|[H2 L2]]]; try lra.
      split; [assumption | split; assumption].
Qed.

Lemma row_eqb_refl a : Np.row_eqb a a = true.
Proof. apply row_eqb_equiv. split; apply row_less_irrefl. Qed.

Lemma row_eqb_sym a b : Np.row_eqb a b = Np.row_eqb b a.
Proof.
  destruct (Np.row_eqb a b) eqn:E1, (Np.row_eqb b a) eqn:E2; try reflexivity.
  - apply row_eqb_equiv in E1 as [? ?].
    assert (Np.row_eqb b a = true) by (apply row_eqb_equiv; split; assumption).
    congruence.
  - apply row_eqb_equiv in E2 as [? ?].
    assert (Np.row_eqb a b = true) by (apply row_eqb_equiv; split; assumption).
    congruence.
Qed.

Lemma StronglySorted_lookup_lt {A} (R : A → A → Prop) (l : list A) :
  StronglySorted R l →
  ∀ a b x y, (a < b)%nat → l !! a = Some x → l !! b = Some y → R x y.
Proof.
  induction 1 as [|z l Hs IH Hz]; intros a b x y Hab Ha Hb.
  - discriminate.
  - destruct b as [|b]; [lia|]. cbn in Hb. destruct a as [|a].
    + cbn in Ha. injection Ha as ->. rewrite Forall_forall in Hz.
      apply Hz. eapply list_elem_of_lookup_2, Hb.
    + cbn in Ha. eapply IH; [|eassumption..]. lia.
Qed.

(** The indices np.unique returns for the rows [ar]. *)
Lemma unique_rows_index_spec (ar : list row) :
  let I := Np.unique_rows_index ar in
  (∀ i, i ∈ I → (i < length ar)%nat)
  ∧ (∀ a b i j ki kj, (a < b)%nat → I !! a = Some i → I !! b = Some j →
       ar !! i = Some ki → ar !! j = Some kj → Np.row_eqb ki kj = false)
  ∧ (∀ i j ki kj, i ∈ I → (j < i)%nat →
       ar !! i = Some ki → ar !! j = Some kj → Np.row_eqb kj ki = false)
  ∧ (∀ j kj, ar !! j = Some kj →
       ∃ i ki, i ∈ I ∧ (i ≤ j)%nat ∧ ar !! i = Some ki ∧ Np.row_eqb ki kj = true).
Proof.
  unfold Np.unique_rows_index.
  destruct (unique1d_spec Np.row_less Np.row_eqb row_less_irrefl row_less_trans
              row_less_ntrans row_eqb_equiv ar)
    as (Hmem & Hstrict & Hfirst & Hcover).
  set (U := Np.unique1d Np.row_less Np.row_eqb ar) in *.
  assert (Hidx : ∀ i, i ∈ U.*2 → ∃ k, (k, i) ∈ U ∧ ar !! i = Some k).
  { intros i Hi. apply list_elem_of_fmap in Hi as ([k i'] & -> & Hu).
    exists k. split; [exact Hu | apply Hmem, Hu]. }
  split.
  { intros i Hi. destruct (Hidx i Hi) as (k & _ & E).
    apply lookup_lt_is_Some. eexists; exact E. }
  split.
  { intros a b i j ki kj Hab Ha Hb Ei Ej.
    rewrite list_lookup_fmap in Ha, Hb.
    destruct (U !! a) as [[k1 i1]|] eqn:Ua; [|discriminate].
    destruct (U !! b) as [[k2 i2]|] eqn:Ub; [|discriminate].
    cbn in Ha, Hb. injection Ha as ->. injection Hb as ->.
    pose proof (StronglySorted_lookup_lt _ _ Hstrict _ _ _ _ Hab Ua Ub) as Hlt.
    cbn in Hlt.
    pose proof (Hmem _ _ (list_elem_of_lookup_2 _ _ _ Ua)) as E1.
    pose proof (Hmem _ _ (list_elem_of_lookup_2 _ _ _ Ub)) as E2.
    rewrite Ei in E1. rewrite Ej in E2. injection E1 as ->. injection E2 as ->.
    destruct (Np.row_eqb k1 k2) eqn:E; [|reflexivity].
    apply row_eqb_equiv in E as [E _]. congruence. }
  split.
  { intros i j ki kj Hi Hji Ei Ej.
    destruct (Hidx i Hi) as (k & Hu & E). rewrite Ei in E. injection E as <-.
    destruct (Np.row_eqb kj ki) eqn:E; [|reflexivity].
    apply row_eqb_equiv in E. pose proof (Hfirst _ _ _ _ Hu Ej E). lia. }
  intros j kj Ej. destruct (Hcover _ _ Ej) as (k & i & Hu & Heq).
  exists i, k. split; [apply list_elem_of_fmap; exists (k, i); split; [reflexivity|exact Hu]|].
  split; [eapply Hfirst; [exact Hu | exact Ej | apply key_equiv_sym, Heq]|].
  split; [apply Hmem, Hu | apply row_eqb_equiv, Heq].
Qed.

(* ------------------------------------------------------------------ *)
(** ** Smoothing: the loop, the candidates, the rows kept *)

Lemma smooth_point_value cl m (buf : list row) idx (point : row) :
  cl !! idx = Some point →
  smooth_point cl m buf idx
  = v ← smooth_value cl m point;
    Ok (match v with Some avg => <[idx := avg]> buf | None => buf end).
Proof.
  intros E. unfold smooth_point, smooth_value. rewrite E.
  destruct (length (neighborhood cl point m) <? 2)%nat; [reflexivity|].
  destruct (Np.average _ _) as [avg|e|]; cbn; [|reflexivity..].
  destruct (Np.isclose (get avg 4) 0); reflexivity.
Qed.

Lemma smooth_loop cl m : ∀ k s (buf buf' : list row),
  (s + k ≤ length cl)%nat →
  foldM (smooth_point cl m) buf (seq s k) = Ok buf' →
  length buf' = length buf
  ∧ (∀ i, (i < s ∨ s + k ≤ i)%nat → buf' !! i = buf !! i)
  ∧ (∀ i, (s ≤ i < s + k)%nat → (i < length buf)%nat →
       ∃ point v, cl !! i = Some point
                  ∧ smooth_value cl m point = Ok v
                  ∧ buf' !! i = match v with
                                | Some avg => Some avg
                                | None => buf !! i
                                end).
Proof.
  induction k as [|k IH]; intros s buf buf' Hle Hrun.
  - cbn in Hrun. injection Hrun as <-.
    split; [reflexivity|]. split; [reflexivity|]. intros i Hi. lia.
  - cbn [seq foldM] in Hrun.
    destruct (lookup_lt_is_Some_2 cl s ltac:(lia)) as [point Hs].
    rewrite (smooth_point_value _ _ _ _ _ Hs) in Hrun.
    destruct (smooth_value cl m point) as [v|e|] eqn:Hv; [|discriminate..].
    cbn [mbind result_bind] in Hrun.
    set (buf1 := match v with Some avg => <[s := avg]> buf | None => buf end) in *.
    assert (Hlen1 : length buf1 = length buf).
    { subst buf1. destruct v; [apply length_insert | reflexivity]. }
    assert (Hother : ∀ i, i ≠ s → buf1 !! i = buf !! i).
    { intros i Hi. subst buf1. destruct v; [|reflexivity].
      apply list_lookup_insert_ne. congruence. }
    destruct (IH (S s) buf1 buf' ltac:(lia) Hrun) as (Hlen & Hout & Hin).
    split; [congruence|]. split.
    + intros i Hi. rewrite Hout by lia. apply Hother. lia.
    + intros i Hi Hib. destruct (decide (i = s)) as [->|Hne].
      * exists point, v. split; [exact Hs|]. split; [exact Hv|].
        rewrite Hout by lia. subst buf1. destruct v; [|reflexivity].
        apply list_lookup_insert_eq. exact Hib.
      * destruct (Hin i ltac:(lia) ltac:(lia)) as (q & v' & Hq & Hv' & E).
        exists q, v'. split; [exact Hq|]. split; [exact Hv'|].
        rewrite E. destruct v'; [reflexivity|]. apply Hother, Hne.
Qed.

Lemma smooth_loop_total cl m :
  (∀ i point, cl !! i = Some point → ∃ v, smooth_value cl m point = Ok v) →
  ∀ k s (buf : list row), (s + k ≤ length cl)%nat →
    ∃ buf', foldM (smooth_point cl m) buf (seq s k) = Ok buf'.
Proof.
  intros Hall. induction k as [|k IH]; intros s buf Hle.
  - eexists. reflexivity.
  - cbn [seq foldM].
    destruct (lookup_lt_is_Some_2 cl s ltac:(lia)) as [point Hs].
    rewrite (smooth_point_value _ _ _ _ _ Hs).
    destruct (Hall _ _ Hs) as [v Hv]. rewrite Hv. cbn [mbind result_bind].
    apply IH. lia.
Qed.

Lemma get_replicate_zero n j : get (replicate n 0%Q) j = 0%Q.
Proof.
  unfold get. destruct (replicate n 0%Q !! j) as [v|] eqn:E; [|reflexivity].
  apply lookup_replicate in E as [-> _]. reflexivity.
Qed.

(** Every candidate is the row an iteration wrote: the weighted average
    of a neighborhood of two points or more. *)
Lemma smooth_candidates_spec cl m (cands : list row) :
  smooth_candidates cl m = Ok cands →
  ∀ r, r ∈ cands →
    ∃ i point, cl !! i = Some point ∧ smooth_value cl m point = Ok (Some r).
Proof.
  unfold smooth_candidates. intros Hrun r Hr.
  destruct (foldM _ _ _) as [buf'|e|] eqn:Hloop; [|discriminate..].
  cbn [mbind result_bind] in Hrun. injection Hrun as <-.
  apply list_elem_of_In, filter_In in Hr as [Hr Hamp].
  apply list_elem_of_In, list_elem_of_lookup_1 in Hr as [i Hi].
  destruct (smooth_loop cl m (length cl) 0 _ _ ltac:(lia) Hloop) as (Hlen & _ & Hin).
  unfold Np.zeros in Hlen, Hin. rewrite length_replicate in Hlen, Hin.
  assert (Hil : (i < length cl)%nat).
  { rewrite <- Hlen. apply lookup_lt_is_Some. eexists; exact Hi. }
  destruct (Hin i ltac:(lia) Hil) as (point & v & Hp & Hv & E).
  exists i, point. split; [exact Hp|]. rewrite Hv. destruct v as [avg|].
  - rewrite Hi in E. congruence.
  - exfalso. rewrite Hi, lookup_replicate_2 in E by exact Hil.
    injection E as ->. rewrite get_replicate_zero in Hamp. discriminate Hamp.
Qed.

Lemma smooth_candidates_total cl m :
  (∀ i point, cl !! i = Some point → ∃ v, smooth_value cl m point = Ok v) →
  ∃ cands, smooth_candidates cl m = Ok cands.
Proof.
  intros Hall. unfold smooth_candidates.
  destruct (smooth_loop_total cl m Hall (length cl) 0
              (Np.zeros (length cl) (Np.ncols cl)) ltac:(lia)) as [buf' E].
  rewrite E. eexists. reflexivity.
Qed.

Lemma index_rows_Ok (a : list row) (indices : list nat) (rows : list row) :
  Np.index_rows a indices = Ok rows ↔ Forall2 (λ i r, a !! i = Some r) indices rows.
Proof.
  unfold Np.index_rows. rewrite <- mapM_Some.
  destruct (mapM _ indices); split; congruence.
Qed.

Lemma index_rows_total (a : list row) (indices : list nat) :
  (∀ i, i ∈ indices → (i < length a)%nat) →
  ∃ rows, Np.index_rows a indices = Ok rows.
Proof.
  intros Hin. unfold Np.index_rows.
  assert (is_Some (mapM (λ i, a !! i) indices)) as [rows E].
  { apply mapM_is_Some, Forall_forall. intros i Hi. cbn.
    apply lookup_lt_is_Some, Hin, Hi. }
  rewrite E. eexists. reflexivity.
Qed.

(** The cloud after smoothing: the candidates at the indices np.unique
    returns for their rounded positions. *)
Lemma smooth_cloud_Ok self m self' :
  smooth_cloud self m = Ok self' ↔
  ∃ cands,
    smooth_candidates (cloud self) m = Ok cands
    ∧ event_number self' = event_number self
    ∧ Forall2 (λ i r, cands !! i = Some r)
        (Np.unique_rows_index (map rounded_position cands)) (cloud self').
Proof.
  unfold smooth_cloud.
  destruct (smooth_candidates (cloud self) m) as [cands|e|]; cbn [mbind result_bind].
  - destruct (Np.index_rows cands _) as [rows|e|] eqn:E; cbn.
    + apply index_rows_Ok in E. split.
      * intros [= <-]. exists cands. cbn. split; [reflexivity|].
        split; [reflexivity | exact E].
      * intros (c & [= <-] & Hn & Hrows). destruct self' as [n' cl']. cbn in *.
        apply index_rows_Ok in E, Hrows. congruence.
    + split; [discriminate|]. intros (c & [= <-] & _ & Hrows).
      apply index_rows_Ok in Hrows. congruence.
    + split; [discriminate|]. intros (c & [= <-] & _ & Hrows).
      apply index_rows_Ok in Hrows. congruence.
  - split; [discriminate|]. intros (c & [=] & _).
  - split; [discriminate|]. intros (c & [=] & _).
Qed.

Lemma smooth_cloud_total self m :
  (∀ i point, cloud self !! i = Some point →
     ∃ v, smooth_value (cloud self) m point = Ok v) →
  ∃ self', smooth_cloud self m = Ok self'.
Proof.
  intros Hall. unfold smooth_cloud.
  destruct (smooth_candidates_total _ _ Hall) as [cands ->].
  cbn [mbind result_bind].
  destruct (index_rows_total cands
              (Np.unique_rows_index (map rounded_position cands))) as [rows ->].
  - intros i Hi.
    destruct (unique_rows_index_spec (map rounded_position cands)) as (Hlt & _).
    specialize (Hlt i Hi). rewrite length_map in Hlt. exact Hlt.
  - eexists. reflexivity.
Qed.

Lemma smooth_value_Some cl m (q r : row) :
  smooth_value cl m q = Ok (Some r) ↔
  (2 ≤ length (neighborhood cl q m))%nat
  ∧ Np.average (neighborhood cl q m) (map (λ p, get p 3) (neighborhood cl q m))
    = Ok r
  ∧ Np.isclose (get r 4) 0 = false.
Proof.
  unfold smooth_value.
  destruct (Nat.ltb_spec (length (neighborhood cl q m)) 2) as [Hlt|Hge].
  - split; [discriminate | intros [Hge _]; lia].
  - destruct (Np.average _ _) as [avg|e|]; cbn [mbind result_bind].
    + destruct (Np.isclose (get avg 4) 0) eqn:Hc.
      * split; [discriminate|]. intros (_ & [= ->] & Hc'). congruence.
      * split; [intros [= ->]; auto | intros (_ & [= ->] & _); reflexivity].
    + split; [discriminate | intros (_ & [=] & _)].
    + split; [discriminate | intros (_ & [=] & _)].
Qed.

Lemma smooth_value_isolated cl m (q : row) :
  (length (neighborhood cl q m) < 2)%nat → smooth_value cl m q = Ok None.
Proof.
  intros Hlt. unfold smooth_value.
  apply Nat.ltb_lt in Hlt. rewrite Hlt. reflexivity.
Qed.

Lemma smooth_value_defined cl m (q : row) :
  ((2 ≤ length (neighborhood cl q m))%nat → ¬ zero_weight cl m q) →
  ∃ v, smooth_value cl m q = Ok v.
Proof.
  intros Hw. unfold smooth_value.
  destruct (Nat.ltb_spec (length (neighborhood cl q m)) 2) as [Hlt|Hge];
    [eexists; reflexivity|].
  unfold Np.average. specialize (Hw Hge). unfold zero_weight in Hw.
  apply Qeq_bool_false in Hw. rewrite Hw. cbn [mbind result_bind].
  destruct (Np.isclose _ 0); eexists; reflexivity.
Qed.

Lemma smooth_cloud_rows self m self' :
  smooth_cloud self m = Ok self' →
  ∀ r, r ∈ cloud self' →
    ∃ j q, cloud self !! j = Some q
           ∧ smooth_value (cloud self) m q = Ok (Some r).
Proof.
  intros Hrun r Hr. apply smooth_cloud_Ok in Hrun as (cands & Hc & _ & Hrows).
  apply list_elem_of_lookup_1 in Hr as [a Ha].
  destruct (Forall2_lookup_r _ _ _ _ _ Hrows Ha) as (i & _ & Hi).
  eapply smooth_candidates_spec; [exact Hc|].
  eapply list_elem_of_lookup_2, Hi.
Qed.

Lemma row_eqb_Forall2 a : ∀ b, Np.row_eqb a b = true ↔ Forall2 Qeq a b.
Proof.
  induction a as [|x a IH]; intros [|y b]; cbn [Np.row_eqb].
  - split; [constructor | reflexivity].
  - split; [discriminate | intros E; inversion E].
  - split; [discriminate | intros E; inversion E].
  - rewrite andb_true_iff, Qeq_bool_iff, IH. split.
    + intros [? ?]. constructor; assumption.
    + intros E. inversion E; subst. split; assumption.
Qed.

(* ------------------------------------------------------------------ *)
(** ** The claims on smoothing *)








(** C7.  A point whose neighborhood has fewer than two members is
    discarded: its iteration leaves the buffer as it is, and every row of
    the smoothed cloud is the weighted average of the neighborhood of
    another point, one with two members or more. *)
Theorem smooth_cloud_discards_isolated (self : PointCloud) (m : Q)
    (idx : nat) (point : row) :
  cloud self !! idx = Some point →
  (length (neighborhood (cloud self) point m) < 2)%nat →
  (∀ buf, smooth_point (cloud self) m buf idx = Ok buf)
  ∧ ∀ self', smooth_cloud self m = Ok self' →
      ∀ r, r ∈ cloud self' →
        ∃ j q, j ≠ idx ∧ q ≠ point
               ∧ cloud self !! j = Some q
               ∧ (2 ≤ length (neighborhood (cloud self) q m))%nat
               ∧ Np.average (neighborhood (cloud self) q m)
                   (map (λ p, get p 3) (neighborhood (cloud self) q m)) = Ok r.
Proof.
  intros Hp Hlt. split.
  - intros buf. rewrite (smooth_point_value _ _ _ _ _ Hp).
    rewrite smooth_value_isolated by exact Hlt. reflexivity.
  - intros self' Hrun r Hr.
    destruct (smooth_cloud_rows _ _ _ Hrun r Hr) as (j & q & Hq & Hv).
    apply smooth_value_Some in Hv as (Hge & Havg & _).
    assert (Hne : q ≠ point) by (intros ->; lia).
    exists j, q. repeat split; try assumption.
    intros ->. rewrite Hp in Hq. congruence.
Qed.

(** *** np.rint and np.round *)

(** np.rint answers an integer nearest to its argument. *)
Lemma rint_spec (x : Q) : (Qabs (x - inject_Z (Np.rint x)) <= 1 # 2)%Q.
Proof.
  unfold Np.rint. pose proof (Qfloor_le x) as Hlo. pose proof (Qlt_floor x) as Hhi.
  rewrite inject_Z_plus in Hhi. change (inject_Z 1) with 1%Q in Hhi.
  destruct (Qcompare_spec (x - inject_Z (Qfloor x)) (1 # 2)) as [E|E|E].
  - destruct (Z.even (Qfloor x)); [|rewrite inject_Z_plus; change (inject_Z 1) with 1%Q];
      apply Qabs_Qle_condition; lra.
  - apply Qabs_Qle_condition. lra.
  - rewrite inject_Z_plus. change (inject_Z 1) with 1%Q.
    apply Qabs_Qle_condition. lra.
Qed.

Lemma inject_Z_pred (k : Z) : (inject_Z (k - 1) == inject_Z k - 1)%Q.
Proof.
  unfold Z.sub. rewrite inject_Z_plus, inject_Z_opp. reflexivity.
Qed.

(** It is the integer of the cell: an argument less than a half away from
    an integer is rounded to that integer. *)
Lemma rint_cell (x : Q) (k : Z) :
  (Qabs (x - inject_Z k) < 1 # 2)%Q → Np.rint x = k.
Proof.
  intros Hk. apply Qabs_Qlt_condition in Hk as [Hk1 Hk2].
  unfold Np.rint. pose proof (Qfloor_le x) as Hlo. pose proof (Qlt_floor x) as Hhi.
  rewrite inject_Z_plus in Hhi. change (inject_Z 1) with 1%Q in Hhi.
  assert (Hcmp : ∀ a b : Z, (inject_Z a < inject_Z b + 1)%Q → (a ≤ b)%Z).
  { intros a b Hab. assert (a < b + 1)%Z; [|lia].
    rewrite Zlt_Qlt, inject_Z_plus. exact Hab. }
  assert (Hf : (k - 1 ≤ Qfloor x ≤ k)%Z).
  { split.
    - apply Hcmp. rewrite inject_Z_pred. lra.
    - apply Hcmp. lra. }
  assert (Qfloor x = k ∨ Qfloor x = (k - 1)%Z) as [Ef|Ef] by lia;
    rewrite Ef in *; clear Ef.
  - destruct (Qcompare_spec (x - inject_Z k) (1 # 2)) as [E|E|E];
      [exfalso; lra | reflexivity | exfalso; lra].
  - rewrite inject_Z_pred in Hlo, Hhi.
    destruct (Qcompare_spec (x - inject_Z (k - 1)) (1 # 2)) as [E|E|E];
      rewrite inject_Z_pred in E; [exfalso; lra | exfalso; lra | lia].
Qed.

(** *** The nearest float64 *)

Lemma pow2_pos (e : Z) : (0 < 2 ^ e)%Q.
Proof. apply Qpower_0_lt. reflexivity. Qed.

Lemma pow2_succ (e : Z) : (2 ^ (e + 1) == 2 ^ e * 2)%Q.
Proof. rewrite Qpower_plus by discriminate. reflexivity. Qed.

Lemma pow2_log2 (n : positive) :
  (2 ^ Z.log2 (Zpos n) <= inject_Z (Zpos n))%Q
  ∧ (inject_Z (Zpos n) < 2 ^ Z.log2 (Zpos n) * 2)%Q.
Proof.
  destruct (Z.log2_spec (Zpos n) ltac:(lia)) as [Hlo Hhi].
  pose proof (Z.log2_nonneg (Zpos n)) as H0.
  rewrite <- pow2_succ.
  rewrite <- !(Zpower_Qpower 2) by lia.
  split; [rewrite <- Zle_Qle; exact Hlo|].
  rewrite <- Zlt_Qlt. unfold Z.succ in Hhi. exact Hhi.
Qed.

(** [Np.ilog2] is the exponent of a positive value. *)
Lemma ilog2_spec (a : Q) :
  (0 < a)%Q → (2 ^ Np.ilog2 a <= a)%Q ∧ (a < 2 ^ (Np.ilog2 a + 1))%Q.
Proof.
  intros Ha. destruct a as [n d]. destruct n as [|n|n]; try discriminate Ha.
  unfold Np.ilog2. cbn [Qnum Qden].
  destruct (pow2_log2 n) as [Hn1 Hn2]. destruct (pow2_log2 d) as [Hd1 Hd2].
  pose proof (pow2_pos (Z.log2 (Zpos n))) as HP.
  pose proof (pow2_pos (Z.log2 (Zpos d))) as HD.
  assert (Ea : (Zpos n # d == inject_Z (Zpos n) / inject_Z (Zpos d))%Q)
    by apply Qmake_Qdiv.
  assert (Hd0 : (0 < inject_Z (Zpos d))%Q) by reflexivity.
  assert (E0 : (2 ^ (Z.log2 (Zpos n) - Z.log2 (Zpos d))
                == 2 ^ Z.log2 (Zpos n) / 2 ^ Z.log2 (Zpos d))%Q)
    by (apply Qpower_minus; discriminate).
  revert Hn1 Hn2 Hd1 Hd2 HP HD Ea Hd0 E0.
  generalize (inject_Z (Zpos n)) (inject_Z (Zpos d)).
  generalize (2 ^ Z.log2 (Zpos n))%Q (2 ^ Z.log2 (Zpos d))%Q.
  intros P D N M Hn1 Hn2 Hd1 Hd2 HP HD Ea Hd0 E0.
  assert (Hlow : (P / (D * 2) <= N / M)%Q).
  { apply Qle_shift_div_l; [exact Hd0|].
    unfold Qdiv. rewrite <- Qmult_assoc, (Qmult_comm (/ (D * 2))), Qmult_assoc.
    apply Qle_shift_div_r; [nra|]. nra. }
  assert (Hhigh : (N / M < P * 2 / D)%Q).
  { apply Qlt_shift_div_r; [exact Hd0|].
    unfold Qdiv. rewrite <- Qmult_assoc, (Qmult_comm (/ D)), Qmult_assoc.
    apply Qlt_shift_div_l; [exact HD|]. nra. }
  destruct (Qle_bool _ _) eqn:Hb.
  - apply Qle_bool_iff in Hb. split; [exact Hb|].
    rewrite pow2_succ, E0, Ea. unfold Qdiv in *.
    rewrite <- Qmult_assoc, (Qmult_comm (/ D)), Qmult_assoc. exact Hhigh.
  - assert (Hlt : (Zpos n # d < 2 ^ (Z.log2 (Zpos n) - Z.log2 (Zpos d)))%Q).
    { apply Qnot_le_lt. intros Hle. apply Qle_bool_iff in Hle. congruence. }
    replace (Z.log2 (Zpos n) - Z.log2 (Zpos d) - 1 + 1)%Z
      with (Z.log2 (Zpos n) - Z.log2 (Zpos d))%Z by lia.
    split; [|exact Hlt].
    assert (E1 : (2 ^ (Z.log2 (Zpos n) - Z.log2 (Zpos d) - 1) * 2
                  == 2 ^ (Z.log2 (Zpos n) - Z.log2 (Zpos d)))%Q).
    { rewrite <- pow2_succ. apply Qpower_comp; [reflexivity|lia]. }
    rewrite E0 in E1. rewrite Ea.
    assert (E2 : (2 ^ (Z.log2 (Zpos n) - Z.log2 (Zpos d) - 1) == P / (D * 2))%Q).
    { revert E1. generalize (2 ^ (Z.log2 (Zpos n) - Z.log2 (Zpos d) - 1))%Q.
      intros t E1. field_simplify_eq; [|nra].
      assert (t * 2 * D == P)%Q; [|lra].
      rewrite E1. field. nra. }
    rewrite E2. exact Hlow.
Qed.

(** The float64 nearest to [x] is a multiple of the unit of its exponent,
    half a unit away from [x] at most. *)
Lemma fl_error (x : Q) :
  (Qabs (Np.fl x - x) <= 2 ^ Z.max (Np.ilog2 (Qabs x) - 52) (-1074) / 2)%Q.
Proof.
  unfold Np.fl. set (e := Z.max _ _). pose proof (pow2_pos e) as HP.
  pose proof (rint_spec (x / 2 ^ e)) as Hr.
  revert Hr HP. generalize (2 ^ e)%Q. intros P Hr HP.
  assert (E : (inject_Z (Np.rint (x / P)) * P - x
               == - (x / P - inject_Z (Np.rint (x / P))) * P)%Q)
    by (field; lra).
  rewrite E, Qabs_Qmult, Qabs_opp, (Qabs_pos P) by lra.
  revert Hr. generalize (Qabs (x / P - inject_Z (Np.rint (x / P)))).
  intros t Ht. apply Qle_shift_div_l; [reflexivity|]. nra.
Qed.

Lemma fl_zero (x : Q) : (x == 0)%Q → (Np.fl x == 0)%Q.
Proof.
  intros E. unfold Np.fl. set (e := Z.max _ _).
  rewrite (rint_cell _ 0); [ring|].
  rewrite E. unfold Qdiv. rewrite Qmult_0_l. reflexivity.
Qed.

(** From the smallest normal double on, the distance is a part in 2^53
    of the value. *)
Lemma fl_relative (x : Q) :
  (2 ^ (-1022) <= Qabs x)%Q →
  (Qabs (Np.fl x - x) <= Qabs x * (1 # 9007199254740992))%Q.
Proof.
  intros Hx. pose proof (pow2_pos (-1022)) as Hmin.
  destruct (ilog2_spec (Qabs x) ltac:(lra)) as [Hlo Hhi].
  assert (Hil : (-1022 ≤ Np.ilog2 (Qabs x))%Z).
  { assert (-1022 < Np.ilog2 (Qabs x) + 1)%Z; [|lia].
    apply (Qpower_lt_compat_l_inv 2); [|reflexivity].
    eapply Qle_lt_trans; eassumption. }
  pose proof (fl_error x) as He.
  rewrite Z.max_l in He by lia.
  assert (E : (2 ^ (Np.ilog2 (Qabs x) - 52)
               == 2 ^ Np.ilog2 (Qabs x) * (1 # 4503599627370496))%Q).
  { unfold Z.sub. rewrite Qpower_plus by discriminate. reflexivity. }
  rewrite E in He. clear E Hhi Hx Hmin.
  revert Hlo He. generalize (2 ^ Np.ilog2 (Qabs x))%Q.
  generalize (Qabs (Np.fl x - x)) (Qabs x). intros t a P Hlo He.
  assert (P * (1 # 4503599627370496) / 2 == P * (1 # 9007199254740992))%Q
    by (field).
  lra.
Qed.

(** A crude bound that holds for every value. *)
Lemma fl_bound (x : Q) : (Qabs (Np.fl x) <= 2 * Qabs x + 1)%Q.
Proof.
  destruct (Qeq_dec x 0) as [E|Hne].
  { assert (Qabs (Np.fl x) == 0)%Q by (rewrite (fl_zero x E); reflexivity).
    pose proof (Qabs_nonneg x). lra. }
  assert (Ha : (0 < Qabs x)%Q).
  { pose proof (Qabs_nonneg x). destruct (Qeq_dec (Qabs x) 0) as [E|E]; [|lra].
    exfalso. apply Hne. revert E. apply Qabs_case; intros; lra. }
  destruct (ilog2_spec _ Ha) as [Hlo _]. pose proof (fl_error x) as He.
  assert (Hu : (2 ^ Z.max (Np.ilog2 (Qabs x) - 52) (-1074) <= Qabs x + 1)%Q).
  { destruct (Z.max_spec (Np.ilog2 (Qabs x) - 52) (-1074)) as [[_ ->]|[_ ->]].
    - apply Qle_trans with (2 ^ 0)%Q; [|cbn; lra].
      apply Qpower_le_compat_l; [lia|discriminate].
    - apply Qle_trans with (2 ^ Np.ilog2 (Qabs x))%Q; [|lra].
      apply Qpower_le_compat_l; [lia|discriminate]. }
  revert He Hu. generalize (2 ^ Z.max (Np.ilog2 (Qabs x) - 52) (-1074))%Q.
  intros u He Hu.
  assert (Ht : (Qabs (Np.fl x) <= Qabs (Np.fl x - x) + Qabs x)%Q).
  { eapply Qle_trans; [|apply Qabs_triangle].
    apply Qle_lteq. right. apply Qabs_wd. ring. }
  assert (Qabs (Np.fl x - x) <= u / 2)%Q by exact He.
  assert (u / 2 <= (Qabs x + 1) / 2)%Q.
  { unfold Qdiv. apply Qmult_le_compat_r; [exact Hu|discriminate]. }
  assert ((Qabs x + 1) / 2 == Qabs x / 2 + (1 # 2))%Q by field.
  assert (Qabs x / 2 <= Qabs x)%Q.
  { apply Qle_shift_div_r; [reflexivity|]. lra. }
  lra.
Qed.

(** *** The key of a coordinate *)

(** np.round to two decimals: the integer nearest to the scaled
    coordinate, over 100. *)
Lemma round_scaled (x : Q) :
  Np.round 2 x = Np.fl (inject_Z (cell x) / 100).
Proof. reflexivity. Qed.

Lemma round_cell (x y : Q) (k : Z) :
  (Qabs (scaled x - inject_Z k) < 1 # 2)%Q →
  (Qabs (scaled y - inject_Z k) < 1 # 2)%Q →
  Np.round 2 x = Np.round 2 y.
Proof.
  intros Hx Hy. rewrite !round_scaled. unfold cell.
  rewrite (rint_cell _ _ Hx), (rint_cell _ _ Hy). reflexivity.
Qed.

Lemma rounded_position_get (p : row) j :
  (j < 3)%nat → (3 ≤ length p)%nat →
  rounded_position p !! j = Some (Np.round 2 (get p j)).
Proof.
  intros Hj Hp. unfold rounded_position, get.
  change (map (Np.round 2) (take 3 p)) with (Np.round 2 <$> take 3 p).
  rewrite list_lookup_fmap, lookup_take_lt by exact Hj.
  destruct (lookup_lt_is_Some_2 p j ltac:(lia)) as [x ->]. reflexivity.
Qed.

(** Rows of one cell have one key, and rows of different keys are not of
    one cell. *)
Lemma same_cell_rounded (p q : row) :
  (3 ≤ length p)%nat → (3 ≤ length q)%nat →
  same_cell p q → same_rounded_position p q.
Proof.
  intros Hp Hq Hcell. unfold same_rounded_position.
  apply Forall2_same_length_lookup. split.
  - unfold rounded_position. rewrite !length_map, !length_take. lia.
  - intros j x y Ex Ey.
    assert (Hj : (j < 3)%nat).
    { apply lookup_lt_Some in Ex. unfold rounded_position in Ex.
      rewrite length_map, length_take in Ex. lia. }
    rewrite rounded_position_get in Ex, Ey by assumption.
    injection Ex as <-. injection Ey as <-.
    destruct (Hcell j Hj) as (k & Hx & Hy).
    rewrite (round_cell _ _ k Hx Hy). reflexivity.
Qed.

Lemma average_length (a : list row) (w : list Q) (avg : row) n :
  a ≠ [] → Forall (λ r : row, length r = n) a → length w = length a →
  Np.average a w = Ok avg → length avg = n.
Proof.
  intros Hne Hrows Hw. unfold Np.average.
  destruct (Qeq_bool _ 0); [discriminate|]. intros [= <-].
  rewrite length_map. unfold Np.weighted_sum.
  assert (Hn : Np.ncols a = n).
  { destruct a as [|r a]; [congruence|]. cbn.
    apply Forall_cons in Hrows as [? _]. assumption. }
  rewrite Hn. clear Hn Hne. revert w Hw.
  induction Hrows as [|r a Hr _ IH]; intros [|x w] Hw; try discriminate Hw.
  - apply length_replicate.
  - cbn [zip_with foldr]. unfold Np.add_rows at 1.
    rewrite length_zip_with, IH by (cbn in Hw; lia).
    unfold Np.scale_row. rewrite length_map, Hr. lia.
Qed.

Lemma smooth_candidates_rows cl m (cands : list row) n :
  Forall (λ r : row, length r = n) cl →
  smooth_candidates cl m = Ok cands →
  Forall (λ r : row, length r = n) cands.
Proof.
  intros Hrows Hc. apply Forall_forall. intros r Hr.
  destruct (smooth_candidates_spec _ _ _ Hc r Hr) as (i & point & _ & Hv).
  apply smooth_value_Some in Hv as (Hge & Havg & _).
  eapply average_length; [| |apply length_map|exact Havg].
  - intros E. rewrite E in Hge. cbn in Hge. lia.
  - apply Forall_forall. intros q Hq. unfold neighborhood in Hq.
    apply list_elem_of_In, filter_In in Hq as [Hq _].
    rewrite Forall_forall in Hrows. apply Hrows, list_elem_of_In, Hq.
Qed.

(** C8, the claim as it stands fails.  The key of the deduplication is
    np.round, which rounds the float64 product of a coordinate with 100:
    for the double nearest to 1.115, a little below it, that product is
    111.5 and the key 1.12, while 1.109375 has the key 1.11.  Two smoothed
    points at these z are both retained, although the z of each is less
    than half a hundredth away from 1.11, so that rounding each to two
    decimals gives the same position (0, 0, 1.11). *)
Lemma smooth_cloud_keeps_equal_hundredths :
  ∃ self' r1 r2,
    smooth_cloud edge_cloud (1 # 1000) = Ok self'
    ∧ cloud self' !! 0%nat = Some r1 ∧ cloud self' !! 1%nat = Some r2
    ∧ (get r1 0 == 0)%Q ∧ (get r2 0 == 0)%Q
    ∧ (get r1 1 == 0)%Q ∧ (get r2 1 == 0)%Q
    ∧ (Qabs (get r1 2 - (111 # 100)) < 5 # 1000)%Q
    ∧ (Qabs (get r2 2 - (111 # 100)) < 5 # 1000)%Q
    ∧ ¬ (get r1 2 == get r2 2)%Q.
Proof.
  eexists _, _, _. split; [vm_compute; reflexivity|].
  split; [reflexivity|]. split; [reflexivity|].
  repeat split; try reflexivity. intros E. discriminate E.
Qed.

(** C8, as amended.  After smoothing an N x 8 cloud no two rows of the
    cloud have the same key (the position after np.round to two decimals),
    and no two lie strictly inside the same cell of the grid of hundredths,
    as the float64 product with 100 places them.  The rows are the
    candidates (the rows written by the loop that have an amplitude) at the
    indices where a key occurs for the first time, one for every key among
    the candidates; candidates of one cell have one key, so that of them
    only the first is kept. *)
Theorem smooth_cloud_deduplicates (self : PointCloud) (m : Q) (self' : PointCloud) :
  Forall (λ r : row, length r = 8%nat) (cloud self) →
  smooth_cloud self m = Ok self' →
  (∀ a b r1 r2, a ≠ b →
     cloud self' !! a = Some r1 → cloud self' !! b = Some r2 →
     ¬ same_rounded_position r1 r2 ∧ ¬ same_cell r1 r2)
  ∧ ∃ cands indicies,
      smooth_candidates (cloud self) m = Ok cands
      ∧ Forall2 (λ i r, cands !! i = Some r) indicies (cloud self')
      ∧ (∀ i j ri rj, i ∈ indicies → (j < i)%nat →
           cands !! i = Some ri → cands !! j = Some rj →
           ¬ same_rounded_position rj ri ∧ ¬ same_cell rj ri)
      ∧ (∀ j rj, cands !! j = Some rj →
           ∃ i ri, i ∈ indicies ∧ (i ≤ j)%nat ∧ cands !! i = Some ri
                   ∧ same_rounded_position ri rj)
      ∧ (∀ i j ri rj, cands !! i = Some ri → cands !! j = Some rj →
           same_cell ri rj → same_rounded_position ri rj).
Proof.
  intros Hwide Hrun. apply smooth_cloud_Ok in Hrun as (cands & Hc & _ & Hrows).
  pose proof (smooth_candidates_rows _ _ _ _ Hwide Hc) as Hlen.
  assert (Hl : ∀ i (r : row), cands !! i = Some r → (3 ≤ length r)%nat).
  { intros i r E. rewrite Forall_forall in Hlen.
    rewrite (Hlen r); [lia|]. eapply list_elem_of_lookup_2, E. }
  assert (Hcell : ∀ i j (ri rj : row), cands !! i = Some ri → cands !! j = Some rj →
            same_cell ri rj → same_rounded_position ri rj).
  { intros i j ri rj Ei Ej. apply same_cell_rounded; eauto. }
  destruct (unique_rows_index_spec (map rounded_position cands))
    as (_ & Hdistinct & Hfirst & Hcover).
  set (I := Np.unique_rows_index (map rounded_position cands)) in *.
  assert (Hkey : ∀ i (r : row), cands !! i = Some r →
            map rounded_position cands !! i = Some (rounded_position r)).
  { intros i r E. change (map rounded_position cands)
      with (rounded_position <$> cands). rewrite list_lookup_fmap, E. reflexivity. }
  assert (Hlt : ∀ a b r1 r2, (a < b)%nat →
            cloud self' !! a = Some r1 → cloud self' !! b = Some r2 →
            Np.row_eqb (rounded_position r1) (rounded_position r2) = false).
  { intros a b r1 r2 Hab Ha Hb.
    destruct (Forall2_lookup_r _ _ _ _ _ Hrows Ha) as (i & Hi & Ei).
    destruct (Forall2_lookup_r _ _ _ _ _ Hrows Hb) as (j & Hj & Ej).
    eapply Hdistinct; eauto. }
  split.
  { intros a b r1 r2 Hab Ha Hb.
    assert (Hkeys : ¬ same_rounded_position r1 r2).
    { intros Hsame. apply row_eqb_Forall2 in Hsame.
      destruct (Nat.lt_total a b) as [Hl'|[->|Hl']]; [| congruence |].
      - rewrite (Hlt _ _ _ _ Hl' Ha Hb) in Hsame. discriminate.
      - rewrite row_eqb_sym, (Hlt _ _ _ _ Hl' Hb Ha) in Hsame. discriminate. }
    split; [exact Hkeys|]. intros Hsame. apply Hkeys.
    destruct (Forall2_lookup_r _ _ _ _ _ Hrows Ha) as (i & _ & Ei).
    destruct (Forall2_lookup_r _ _ _ _ _ Hrows Hb) as (j & _ & Ej).
    eapply Hcell; eassumption. }
  exists cands, I. split; [exact Hc|]. split; [exact Hrows|]. split; [|split].
  - intros i j ri rj Hi Hji Ei Ej.
    assert (Hkeys : ¬ same_rounded_position rj ri).
    { intros Hsame. apply row_eqb_Forall2 in Hsame.
      rewrite (Hfirst i j _ _ Hi Hji (Hkey _ _ Ei) (Hkey _ _ Ej)) in Hsame.
      discriminate. }
    split; [exact Hkeys|]. intros Hsame. apply Hkeys. eapply Hcell; eassumption.
  - intros j rj Ej. destruct (Hcover _ _ (Hkey _ _ Ej)) as (i & ki & Hi & Hij & Ei & Heq).
    change (map rounded_position cands) with (rounded_position <$> cands) in Ei.
    rewrite list_lookup_fmap in Ei.
    destruct (cands !! i) as [ri|] eqn:Eri; [|discriminate].
    cbn in Ei. injection Ei as <-.
    exists i, ri. repeat split; try assumption.
    apply row_eqb_Forall2, Heq.
  - exact Hcell.
Qed.


Lemma smooth_cloud_discards_isolated_witness :
  (∀ buf, smooth_point (cloud example_cloud) 10 buf 4 = Ok buf)
  ∧ ∀ self', smooth_cloud example_cloud 10 = Ok self' →
      ∀ r, r ∈ cloud self' →
        ∃ j q, j ≠ 4%nat ∧ q ≠ [500; 0; 0; 7; 1; 8; 0; 1]%Q
               ∧ cloud example_cloud !! j = Some q
               ∧ (2 ≤ length (neighborhood (cloud example_cloud) q 10))%nat
               ∧ Np.average (neighborhood (cloud example_cloud) q 10)
                   (map (λ p, get p 3) (neighborhood (cloud example_cloud) q 10)) = Ok r.
Proof.
  exact (smooth_cloud_discards_isolated example_cloud 10 4
           [500; 0; 0; 7; 1; 8; 0; 1]%Q eq_refl (le_n 2)).
Defined.

Lemma smooth_cloud_deduplicates_witness :
  smooth_cloud example_cloud 10 = Ok smoothed_example
  ∧ ∀ a b r1 r2, a ≠ b →
      cloud smoothed_example !! a = Some r1 → cloud smoothed_example !! b = Some r2 →
      ¬ same_rounded_position r1 r2 ∧ ¬ same_cell r1 r2.
Proof.
  split; [vm_compute; reflexivity|].
  refine (proj1 (smooth_cloud_deduplicates example_cloud 10 smoothed_example _ _)).
  - repeat constructor.
  - vm_compute. reflexivity.
Defined.

(* ------------------------------------------------------------------ *)
(** ** Sorting *)

Lemma check_argsort_sound keys indices :
  Np.check_argsort keys indices = true → Np.is_argsort keys indices.
Proof.
  unfold Np.check_argsort. rewrite !andb_true_iff, Nat.eqb_eq.
  intros [[Hlen Hall] Hsorted]. split.
  - symmetry. apply submseteq_length_Permutation.
    + apply NoDup_submseteq; [apply NoDup_seq|]. intros i Hi.
      rewrite forallb_forall in Hall. apply list_elem_of_In, Hall in Hi.
      apply existsb_exists in Hi as (j & Hj & E). apply Nat.eqb_eq in E.
      subst j. apply list_elem_of_In, Hj.
    + rewrite length_seq. lia.
  - intros a b i j Hab Ha Hb.
    assert (Hbn : (b < length keys)%nat).
    { rewrite <- Hlen. apply lookup_lt_is_Some. eexists; exact Hb. }
    rewrite forallb_forall in Hsorted.
    specialize (Hsorted a ltac:(apply in_seq; lia)).
    rewrite forallb_forall in Hsorted.
    specialize (Hsorted b ltac:(apply in_seq; lia)).
    apply orb_true_iff in Hsorted as [Hle|Hle].
    + apply Nat.leb_le in Hle. lia.
    + apply Qle_bool_iff in Hle. unfold Np.deref in Hle.
      rewrite Ha, Hb in Hle. exact Hle.
Qed.



Lemma get_z_column (cl : list row) i (p : row) :
  cl !! i = Some p → get (z_column cl) i = get p 2.
Proof.
  intros E. unfold z_column, get at 1.
  change (map (λ p, get p 2) cl) with ((λ p, get p 2) <$> cl).
  rewrite list_lookup_fmap, E. reflexivity.
Qed.

Lemma enumerate_snd {K} (ar : list K) : (Np.enumerate ar).*2 = seq 0 (length ar).
Proof. unfold Np.enumerate. apply snd_zip. rewrite length_seq. lia. Qed.

Lemma ltb_irrefl a : Np.ltb a a = false.
Proof. apply ltb_ge. lra. Qed.

Lemma ltb_trans a b c : Np.ltb a b = true → Np.ltb b c = true → Np.ltb a c = true.
Proof. rewrite !ltb_lt. lra. Qed.

Lemma ltb_ntrans a b c : Np.ltb a b = false → Np.ltb b c = false → Np.ltb a c = false.
Proof. rewrite !ltb_ge. lra. Qed.

(** A sort of the records of the keys, in whatever order they are given,
    answers indices within the contract of np.argsort. *)
Lemma sorted_records_is_argsort (keys : list Q) (records : list (Q * nat)) :
  records ≡ₚ Np.enumerate keys →
  Np.is_argsort keys (Np.sort_stable Np.ltb records).*2.
Proof.
  intros Hperm. split.
  - rewrite (sort_stable_perm Np.ltb records), Hperm, enumerate_snd. reflexivity.
  - intros a b i j Hab Ha Hb. rewrite list_lookup_fmap in Ha, Hb.
    destruct (Np.sort_stable Np.ltb records !! a) as [[ki i']|] eqn:Ea;
      [|discriminate].
    destruct (Np.sort_stable Np.ltb records !! b) as [[kj j']|] eqn:Eb;
      [|discriminate].
    cbn in Ha, Hb. injection Ha as ->. injection Hb as ->.
    pose proof (StronglySorted_lookup_lt _ _
                  (sort_stable_ascending Np.ltb ltb_irrefl ltb_trans ltb_ntrans records)
                  _ _ _ _ Hab Ea Eb) as Hle.
    cbn in Hle. apply ltb_ge in Hle.
    assert (Hmem : ∀ k n, (k, n) ∈ Np.sort_stable Np.ltb records → get keys n = k).
    { intros k n Hin. rewrite (sort_stable_perm Np.ltb records), Hperm in Hin.
      apply elem_of_enumerate in Hin. unfold get. rewrite Hin. reflexivity. }
    rewrite (Hmem _ _ (list_elem_of_lookup_2 _ _ _ Ea)).
    rewrite (Hmem _ _ (list_elem_of_lookup_2 _ _ _ Eb)). exact Hle.
Qed.

Lemma stable_argsort_is_argsort (keys : list Q) :
  Np.is_argsort keys (stable_argsort keys).
Proof. apply sorted_records_is_argsort. reflexivity. Qed.





(* ================================================================== *)
(** * Further properties of the code *)

(** ** Construction *)

Section LoadMore.
Context `{MathLib}.

Lemma load_trace_log pmap corrector (cl : list row) idx log trace :
  (load_trace pmap corrector (cl, idx, log) trace).2
  = log ++ (if warned pmap trace then [spyral_warn (hw_id trace)] else []).
Proof.
  unfold load_trace, warned.
  destruct (get_number_of_peaks trace =? 0)%nat; cbn; [symmetry; apply app_nil_r|].
  destruct (get_pad_from_hardware pmap (hw_id trace)) as [check|]; cbn;
    [|reflexivity].
  destruct (get_pad_data pmap check) as [pad|]; cbn; [|symmetry; apply app_nil_r].
  destruct (foldl _ _ _). cbn. symmetry; apply app_nil_r.
Qed.

Lemma load_traces_log pmap corrector ts : ∀ st,
  (foldl (load_trace pmap corrector) st ts).2
  = st.2 ++ ((λ trace, spyral_warn (hw_id trace)) <$> List.filter (warned pmap) ts).
Proof.
  induction ts as [|trace ts IH]; intros st; cbn [foldl List.filter].
  - cbn. symmetry; apply app_nil_r.
  - rewrite IH. destruct st as [[cl idx] log]. rewrite load_trace_log.
    cbn [snd]. destruct (warned pmap trace); cbn.
    + rewrite <- app_assoc. reflexivity.
    + rewrite app_nil_r. reflexivity.
Qed.

Lemma emitted_point_fields corrector trace pad peak :
  let r := emitted_point corrector trace pad peak in
  length r = 8%nat
  ∧ get r 3 = amplitude peak
  ∧ get r 4 = (integral peak * PadData.gain pad)%Q
  ∧ get r 5 = inject_Z (pad_id (hw_id trace))
  ∧ get r 6 = (centroid peak + PadData.time_offset pad)%Q
  ∧ get r 7 = PadData.scale pad.
Proof.
  destruct corrector as [c|]; cbn [emitted_point].
  - rewrite correct_point_length. rewrite !correct_point_field by lia.
    repeat split.
  - repeat split.
Qed.

(** X1.  The array a construction leaves, and its event number: the
    points of the channels that resolve to a pad, channel after channel in
    the order of the event and peak after peak, each corrected when a
    corrector is given; then one all-zero row for every peak of a channel
    that did not resolve.  Its length is the number of peaks of all
    channels. *)
Theorem load_cloud_layout (self : PointCloud) (event : GetEvent)
    (pmap : PadMap) (corrector : option ElectronCorrector) :
  let pc := (load_cloud_from_get_event self event pmap corrector).1 in
  event_number pc = number event
  ∧ cloud pc
    = concat (emitted_rows pmap corrector <$> traces event)
        ++ Np.zeros (total_peaks event - mapped_peaks pmap event) 8
  ∧ length (cloud pc) = total_peaks event
  ∧ (mapped_peaks pmap event ≤ total_peaks event)%nat.
Proof.
  cbn zeta. split.
  { unfold load_cloud_from_get_event. destruct (foldl _ _ _) as [[? ?] ?].
    reflexivity. }
  split; [apply load_cloud_rows|]. split; [apply load_cloud_length|].
  unfold mapped_peaks, total_peaks.
  induction (traces event) as [|t ts IH]; cbn; [lia|].
  destruct (resolve pmap t); lia.
Qed.

(** X2.  Every row of a constructed cloud is all zero or the point of one
    peak of a channel that resolved to a pad: amplitude of the peak,
    integral times the gain of the pad, the raw pad id of the channel,
    centroid plus time offset as raw time, scale of the pad; without a
    corrector also x and y of the pad and centroid plus time offset
    as z. *)
Theorem load_cloud_row_fields (self : PointCloud) (event : GetEvent)
    (pmap : PadMap) (corrector : option ElectronCorrector) (r : row) :
  r ∈ cloud (load_cloud_from_get_event self event pmap corrector).1 →
  r = replicate 8 0%Q
  ∨ ∃ trace check pad peak,
      trace ∈ traces event ∧ peak ∈ get_peaks trace
      ∧ get_pad_from_hardware pmap (hw_id trace) = Some check
      ∧ get_pad_data pmap check = Some pad
      ∧ length r = 8%nat
      ∧ get r 3 = amplitude peak
      ∧ get r 4 = (integral peak * PadData.gain pad)%Q
      ∧ get r 5 = inject_Z (pad_id (hw_id trace))
      ∧ get r 6 = (centroid peak + PadData.time_offset pad)%Q
      ∧ get r 7 = PadData.scale pad
      ∧ (corrector = None →
           get r 0 = PadData.x pad ∧ get r 1 = PadData.y pad
           ∧ get r 2 = (centroid peak + PadData.time_offset pad)%Q).
Proof.
  rewrite load_cloud_rows, elem_of_app. intros [Hr|Hr].
  - right. apply list_elem_of_In, in_concat in Hr as (rows & Hrows & Hr).
    apply list_elem_of_In in Hrows, Hr.
    apply list_elem_of_fmap in Hrows as (trace & -> & Ht).
    unfold emitted_rows, resolve in Hr.
    destruct (get_pad_from_hardware pmap (hw_id trace)) as [check|] eqn:Hc;
      cbn in Hr; [|exfalso; eapply not_elem_of_nil, Hr].
    destruct (get_pad_data pmap check) as [pad|] eqn:Hp;
      cbn in Hr; [|exfalso; eapply not_elem_of_nil, Hr].
    apply list_elem_of_fmap in Hr as (peak & -> & Hpeak).
    exists trace, check, pad, peak.
    destruct (emitted_point_fields corrector trace pad peak)
      as (? & ? & ? & ? & ? & ?).
    repeat (split; [assumption|]).
    intros ->. repeat split.
  - left. unfold Np.zeros in Hr. apply elem_of_replicate in Hr as [-> _].
    reflexivity.
Qed.

(** X3.  The warnings of a construction: one for every channel that has
    a peak and whose hardware id the pad map does not know, in the order
    of the event.  A channel whose pad id has no pad data is skipped
    without a warning. *)
Theorem load_cloud_warnings (self : PointCloud) (event : GetEvent)
    (pmap : PadMap) (corrector : option ElectronCorrector) :
  (load_cloud_from_get_event self event pmap corrector).2
  = (λ trace, spyral_warn (hw_id trace))
      <$> List.filter (warned pmap) (traces event).
Proof.
  unfold load_cloud_from_get_event.
  pose proof (load_traces_log pmap corrector (traces event)
                (Np.zeros (foldl (λ count trace, count + get_number_of_peaks trace)%nat
                                 0%nat (traces event)) 8, 0%nat, [])) as E.
  destruct (foldl (load_trace pmap corrector) _ _) as [[cl idx] log].
  cbn in E |- *. exact E.
Qed.

End LoadMore.

Lemma load_cloud_row_fields_witness :
  [10; 0; 105; 50; 20; 3; 105; 1]%Q = replicate 8 0%Q
  ∨ ∃ trace check pad peak,
      trace ∈ traces example_event ∧ peak ∈ get_peaks trace
      ∧ get_pad_from_hardware example_pmap (hw_id trace) = Some check
      ∧ get_pad_data example_pmap check = Some pad
      ∧ length [10; 0; 105; 50; 20; 3; 105; 1]%Q = 8%nat
      ∧ get [10; 0; 105; 50; 20; 3; 105; 1]%Q 3 = amplitude peak
      ∧ get [10; 0; 105; 50; 20; 3; 105; 1]%Q 4 = (integral peak * PadData.gain pad)%Q
      ∧ get [10; 0; 105; 50; 20; 3; 105; 1]%Q 5 = inject_Z (pad_id (hw_id trace))
      ∧ get [10; 0; 105; 50; 20; 3; 105; 1]%Q 6 = (centroid peak + PadData.time_offset pad)%Q
      ∧ get [10; 0; 105; 50; 20; 3; 105; 1]%Q 7 = PadData.scale pad
      ∧ (@None ElectronCorrector = None →
           get [10; 0; 105; 50; 20; 3; 105; 1]%Q 0 = PadData.x pad
           ∧ get [10; 0; 105; 50; 20; 3; 105; 1]%Q 1 = PadData.y pad
           ∧ get [10; 0; 105; 50; 20; 3; 105; 1]%Q 2
             = (centroid peak + PadData.time_offset pad)%Q).
Proof.
  apply (@load_cloud_row_fields unused_math unset_cloud example_event example_pmap None).
  left.
Defined.

(** ** Calibration *)

Lemma get_insert_ne (r : row) i j v : i ≠ j → get (<[i := v]> r) j = get r j.
Proof. intros Hne. unfold get. rewrite list_lookup_insert_ne by exact Hne. reflexivity. Qed.

Lemma calibrated_again m1 w1 L1 ic1 m2 w2 L2 ic2 (r : row) :
  calibrated m2 w2 L2 ic2 (calibrated m1 w1 L1 ic1 r) = calibrated m2 w2 L2 ic2 r.
Proof.
  unfold calibrated. rewrite get_insert_ne by lia.
  apply list_insert_insert_eq.
Qed.

Lemma calibrate_z_position_Ok_inv (self self' : PointCloud) (m w L ic : Q) :
  calibrate_z_position self m w L ic = Ok self' →
  self' = {| event_number := event_number self;
             cloud := calibrated m w L ic <$> cloud self |}.
Proof.
  intros Hrun. destruct (Qeq_dec w m) as [Heq|Hne].
  - unfold calibrate_z_position in Hrun.
    destruct (cloud self) as [|point todo] eqn:Hc.
    + cbn in Hrun. injection Hrun as <-. reflexivity.
    + cbn [length] in Hrun. rewrite calibrate_loop_zero in Hrun by exact Heq.
      discriminate.
  - rewrite calibrate_z_position_ok in Hrun by exact Hne.
    injection Hrun as <-. reflexivity.
Qed.

(** X4.  Calibration reads the raw time (field 6) and writes z
    (field 2), so a second calibration does not see the first: calibrating
    twice leaves what the second calibration alone leaves. *)
Theorem calibrate_z_position_again (self : PointCloud)
    (m1 w1 L1 ic1 m2 w2 L2 ic2 : Q) :
  ¬ (w1 == m1)%Q → ¬ (w2 == m2)%Q →
  (self1 ← calibrate_z_position self m1 w1 L1 ic1;
   calibrate_z_position self1 m2 w2 L2 ic2)
  = calibrate_z_position self m2 w2 L2 ic2.
Proof.
  intros H1 H2. rewrite (calibrate_z_position_ok self m1 w1) by exact H1.
  cbn [mbind result_bind]. rewrite !calibrate_z_position_ok by exact H2.
  cbn [event_number cloud]. do 2 f_equal.
  rewrite <- list_fmap_compose. apply list_fmap_ext.
  intros i r _. apply calibrated_again.
Qed.

Lemma calibrate_z_position_again_witness :
  (self1 ← calibrate_z_position example_cloud 0 100 1000 0;
   calibrate_z_position self1 50 500 1000 3)
  = calibrate_z_position example_cloud 50 500 1000 3.
Proof.
  apply (calibrate_z_position_again example_cloud 0 100 1000 0 50 500 1000 3);
    intros E; discriminate E.
Defined.

(** X5.  Whenever calibration returns, the cloud keeps its event number
    and its shape, and every field other than z (field 2) of every point
    is as before. *)
Theorem calibrate_z_position_frame (self self' : PointCloud) (m w L ic : Q) :
  calibrate_z_position self m w L ic = Ok self' →
  event_number self' = event_number self
  ∧ length (cloud self') = length (cloud self)
  ∧ ∀ i p, cloud self !! i = Some p →
      ∃ p', cloud self' !! i = Some p'
            ∧ length p' = length p
            ∧ ∀ j, j ≠ 2%nat → p' !! j = p !! j.
Proof.
  intros Hrun. apply calibrate_z_position_Ok_inv in Hrun. subst self'.
  cbn [event_number cloud]. split; [reflexivity|].
  split; [apply length_fmap|]. intros i p Hp.
  exists (calibrated m w L ic p). rewrite list_lookup_fmap, Hp.
  split; [reflexivity|]. unfold calibrated.
  split; [apply length_insert|]. intros j Hj.
  apply list_lookup_insert_ne. congruence.
Qed.

Lemma calibrate_z_position_frame_witness :
  ∃ self', calibrate_z_position example_cloud 50 500 1000 0 = Ok self'
    ∧ event_number self' = event_number example_cloud
    ∧ length (cloud self') = length (cloud example_cloud).
Proof.
  eexists. split; [reflexivity|].
  pose proof (calibrate_z_position_frame example_cloud _ 50 500 1000 0 eq_refl)
    as (Hn & Hl & _).
  split; [exact Hn | exact Hl].
Defined.



Section CalibrateAfterLoad.
Context `{MathLib}.

Lemma z_column_calibrated_same m w L ic (A B : list row) :
  Forall2 (λ r1 r2 : row, length r1 = 8%nat ∧ length r2 = 8%nat ∧ get r1 6 = get r2 6) A B →
  z_column (calibrated m w L ic <$> A) = z_column (calibrated m w L ic <$> B).
Proof.
  induction 1 as [|r1 r2 A B (L1 & L2 & E) _ IH]; [reflexivity|].
  cbn. rewrite !calibrated_z by lia. rewrite E. f_equal. exact IH.
Qed.

Lemma emitted_rows_same_time pmap (c : ElectronCorrector) trace :
  Forall2 (λ r1 r2 : row, length r1 = 8%nat ∧ length r2 = 8%nat ∧ get r1 6 = get r2 6)
    (emitted_rows pmap (Some c) trace) (emitted_rows pmap None trace).
Proof.
  unfold emitted_rows. destruct (resolve pmap trace) as [[check pad]|]; [|constructor].
  induction (get_peaks trace) as [|peak peaks IH]; [constructor|].
  cbn. constructor; [|exact IH].
  destruct (emitted_point_fields (Some c) trace pad peak) as (L1 & _ & _ & _ & E1 & _).
  destruct (emitted_point_fields None trace pad peak) as (L2 & _ & _ & _ & E2 & _).
  split; [exact L1|]. split; [exact L2|].
  etransitivity; [exact E1 | symmetry; exact E2].
Qed.

(** X7.  The z a calibration leaves does not depend on the corrector:
    calibration computes z from the raw time (field 6), which the field
    correction leaves as it is, and overwrites the z the correction
    wrote. *)
Theorem calibrated_z_ignores_corrector (self : PointCloud) (event : GetEvent)
    (pmap : PadMap) (c : ElectronCorrector) (m w L ic : Q) :
  ¬ (w == m)%Q →
  ∃ pc pc0,
    calibrate_z_position
      (load_cloud_from_get_event self event pmap (Some c)).1 m w L ic = Ok pc
    ∧ calibrate_z_position
        (load_cloud_from_get_event self event pmap None).1 m w L ic = Ok pc0
    ∧ z_column (cloud pc) = z_column (cloud pc0).
Proof.
  intros Hne. rewrite !calibrate_z_position_ok by exact Hne.
  eexists _, _. split; [reflexivity|]. split; [reflexivity|].
  cbn [cloud]. apply z_column_calibrated_same. rewrite !load_cloud_rows.
  apply Forall2_app.
  - induction (traces event) as [|trace ts IH]; [constructor|].
    cbn. apply Forall2_app; [apply emitted_rows_same_time | exact IH].
  - unfold Np.zeros. induction (total_peaks event - mapped_peaks pmap event)%nat;
      cbn; constructor; auto.
Qed.

End CalibrateAfterLoad.

Lemma calibrated_z_ignores_corrector_witness :
  ∃ pc pc0,
    calibrate_z_position
      (@load_cloud_from_get_event unused_math unset_cloud example_event example_pmap
         (Some {| correction := {| interpolate := λ r t, [1; 2; 3]%Q |} |})).1
      50 500 1000 0 = Ok pc
    ∧ calibrate_z_position
        (@load_cloud_from_get_event unused_math unset_cloud example_event
           example_pmap None).1 50 500 1000 0 = Ok pc0
    ∧ z_column (cloud pc) = z_column (cloud pc0).
Proof.
  apply (@calibrated_z_ignores_corrector unused_math).
  intros E. discriminate E.
Defined.

(** ** Neighborhoods *)

Lemma norm_lt_true d m :
  Np.norm_lt d m = true
  ↔ (0 < m)%Q ∧ (Np.sum (map (λ x, x * x)%Q d) < m * m)%Q.
Proof. unfold Np.norm_lt. rewrite andb_true_iff, !ltb_lt. reflexivity. Qed.

Lemma sum_squares_subtract_self (a : list Q) :
  (Np.sum (map (λ x, x * x)%Q (Np.subtract a a)) == 0)%Q.
Proof.
  induction a as [|x a IH]; cbn; [reflexivity|].
  unfold Np.subtract, Np.sum in IH. rewrite IH. ring.
Qed.

Lemma sum_squares_subtract_sym (a : list Q) : ∀ b,
  (Np.sum (map (λ x, x * x)%Q (Np.subtract a b))
   == Np.sum (map (λ x, x * x)%Q (Np.subtract b a)))%Q.
Proof.
  induction a as [|x a IH]; intros [|y b]; cbn; try reflexivity.
  specialize (IH b). unfold Np.subtract, Np.sum in IH. rewrite IH. ring.
Qed.

Lemma elem_of_neighborhood cl (p q : row) m :
  q ∈ neighborhood cl p m
  ↔ q ∈ cl ∧ Np.norm_lt (Np.subtract (take 3 q) (take 3 p)) m = true.
Proof.
  unfold neighborhood. rewrite list_elem_of_In, filter_In, <- list_elem_of_In.
  reflexivity.
Qed.

Lemma filter_sublist {A} (f g : A → bool) (l : list A) :
  (∀ x, f x = true → g x = true) →
  List.filter f l `sublist_of` List.filter g l.
Proof.
  intros Hfg. induction l as [|x l IH]; cbn; [constructor|].
  destruct (f x) eqn:Hf.
  - rewrite (Hfg x Hf). constructor. exact IH.
  - destruct (g x); [constructor|]; exact IH.
Qed.

Lemma neighborhood_nonpositive cl (p : row) m :
  (m <= 0)%Q → neighborhood cl p m = [].
Proof.
  intros Hm. unfold neighborhood.
  induction cl as [|q cl IH]; cbn; [reflexivity|].
  destruct (Np.norm_lt _ m) eqn:E; [|exact IH].
  apply norm_lt_true in E as [E _]. lra.
Qed.

(** X8.  The neighborhood of a point: it is empty for a radius that is
    not positive; for a positive radius it holds the point itself when the
    point is in the cloud; it only grows with the radius; and two points
    of the cloud are each in the neighborhood of the other or neither
    is. *)
Theorem neighborhood_radius (cl : list row) (p : row) (m : Q) :
  ((m <= 0)%Q → neighborhood cl p m = [])
  ∧ ((0 < m)%Q → p ∈ cl → p ∈ neighborhood cl p m)
  ∧ (∀ m', (m <= m')%Q →
       neighborhood cl p m `sublist_of` neighborhood cl p m'
       ∧ (length (neighborhood cl p m) ≤ length (neighborhood cl p m'))%nat)
  ∧ (∀ q, p ∈ cl → q ∈ cl →
       (q ∈ neighborhood cl p m ↔ p ∈ neighborhood cl q m)).
Proof.
  split; [|split; [|split]].
  - apply neighborhood_nonpositive.
  - intros Hm Hp. apply elem_of_neighborhood. split; [exact Hp|].
    apply norm_lt_true. split; [exact Hm|].
    rewrite sum_squares_subtract_self. nra.
  - intros m' Hle.
    assert (Hsub : neighborhood cl p m `sublist_of` neighborhood cl p m').
    { apply filter_sublist. intros q E. apply norm_lt_true in E as [H0 Hs].
      apply norm_lt_true. split; [lra|]. nra. }
    split; [exact Hsub | apply sublist_length, Hsub].
  - intros q Hp Hq. rewrite !elem_of_neighborhood, !norm_lt_true.
    rewrite (sum_squares_subtract_sym (take 3 q) (take 3 p)). tauto.
Qed.

(** ** Smoothing: edge cases, size and order *)

Lemma smooth_loop_untouched cl m (buf : list row) :
  (∀ i p, cl !! i = Some p → smooth_value cl m p = Ok None) →
  foldM (smooth_point cl m) buf (seq 0 (length cl)) = Ok buf.
Proof.
  intros Hnone.
  destruct (smooth_loop_total cl m) with (k := length cl) (s := 0%nat) (buf := buf)
    as [buf' Hrun]; [|lia|].
  { intros i p Hp. eexists. apply (Hnone i p Hp). }
  rewrite Hrun. f_equal.
  destruct (smooth_loop cl m (length cl) 0 buf buf' ltac:(lia) Hrun)
    as (Hlen & Hout & Hin).
  apply list_eq. intros i.
  destruct (Nat.lt_ge_cases i (length cl)) as [Hi|Hi]; [|apply Hout; lia].
  destruct (Nat.lt_ge_cases i (length buf)) as [Hb|Hb].
  - destruct (Hin i ltac:(lia) Hb) as (p & v & Hp & Hv & E).
    rewrite (Hnone i p Hp) in Hv. injection Hv as <-. exact E.
  - rewrite !lookup_ge_None_2 by lia. reflexivity.
Qed.

Lemma filter_zeros n k :
  List.filter (λ p : row, negb (Qeq_bool (get p 3) 0)) (Np.zeros n k) = [].
Proof.
  unfold Np.zeros. induction n as [|n IH]; [reflexivity|].
  cbn [replicate List.filter]. rewrite get_replicate_zero. cbn. exact IH.
Qed.

Lemma length_filter_le {A} (f : A → bool) (l : list A) :
  (length (List.filter f l) ≤ length l)%nat.
Proof. induction l as [|x l IH]; cbn; [lia|]. destruct (f x); cbn; lia. Qed.

Lemma neighborhood_length cl (p : row) m :
  (length (neighborhood cl p m) ≤ length cl)%nat.
Proof. apply length_filter_le. Qed.

(** X9.  Nothing is left of a cloud whose points have no neighbour: on
    a cloud that has a point, when the radius is not positive, when that
    point is the only one, or when every neighborhood has fewer than two
    members, smooth_cloud returns the cloud without rows (and raises
    nothing). *)
Theorem smooth_cloud_sparse (self : PointCloud) (m : Q) :
  cloud self ≠ [] →
  (m <= 0)%Q ∨ length (cloud self) = 1%nat
  ∨ (∀ p, p ∈ cloud self → (length (neighborhood (cloud self) p m) < 2)%nat) →
  smooth_cloud self m = Ok {| event_number := event_number self; cloud := [] |}.
Proof.
  intros _ Hsparse.
  assert (Hiso : ∀ p, p ∈ cloud self →
            (length (neighborhood (cloud self) p m) < 2)%nat).
  { destruct Hsparse as [Hm|[Hl|Hall]]; [| |exact Hall]; intros p Hp.
    - rewrite neighborhood_nonpositive by exact Hm. cbn. lia.
    - pose proof (neighborhood_length (cloud self) p m). lia. }
  unfold smooth_cloud, smooth_candidates.
  rewrite smooth_loop_untouched.
  - cbn [mbind result_bind]. rewrite filter_zeros. reflexivity.
  - intros i p Hp. apply smooth_value_isolated, Hiso.
    eapply list_elem_of_lookup_2, Hp.
Qed.

Lemma smooth_cloud_sparse_witness :
  smooth_cloud example_cloud 0 = Ok {| event_number := 4; cloud := [] |}.
Proof.
  apply (smooth_cloud_sparse example_cloud 0); [discriminate|].
  left. discriminate.
Defined.

Lemma length_run_heads {K} (eqb : K → K → bool) (t : list (K * nat)) : ∀ prev,
  (length (Np.run_heads eqb prev t) ≤ length t)%nat.
Proof.
  induction t as [|y t IH]; intros prev; cbn; [lia|].
  destruct (eqb y.1 prev); cbn; specialize (IH y.1); lia.
Qed.

Lemma length_unique_rows_index (ar : list row) :
  (length (Np.unique_rows_index ar) ≤ length ar)%nat.
Proof.
  unfold Np.unique_rows_index, Np.unique1d. rewrite length_fmap.
  pose proof (sort_stable_perm Np.row_less (Np.enumerate ar)) as Hperm.
  apply Permutation_length in Hperm.
  assert (Hn : length (Np.enumerate ar) = length ar).
  { unfold Np.enumerate. rewrite length_zip_with, length_seq. lia. }
  destruct (Np.sort_stable Np.row_less (Np.enumerate ar)) as [|y t]; cbn in *; [lia|].
  pose proof (length_run_heads Np.row_eqb t y.1). lia.
Qed.

(** X10.  Smoothing never adds points: the smoothed cloud has at most as
    many rows as the cloud, and the event number stays. *)
Theorem smooth_cloud_never_grows (self self' : PointCloud) (m : Q) :
  smooth_cloud self m = Ok self' →
  event_number self' = event_number self
  ∧ (length (cloud self') ≤ length (cloud self))%nat.
Proof.
  intros Hrun. apply smooth_cloud_Ok in Hrun as (cands & Hc & Hn & Hrows).
  split; [exact Hn|].
  apply Forall2_length in Hrows. rewrite <- Hrows.
  pose proof (length_unique_rows_index (map rounded_position cands)) as Hu.
  rewrite length_map in Hu.
  unfold smooth_candidates in Hc.
  destruct (foldM _ _ _) as [buf'|e|] eqn:Hloop; [|discriminate..].
  cbn [mbind result_bind] in Hc. injection Hc as <-.
  destruct (smooth_loop (cloud self) m (length (cloud self)) 0 _ _ ltac:(lia) Hloop)
    as (Hlen & _).
  unfold Np.zeros in Hlen. rewrite length_replicate in Hlen.
  pose proof (length_filter_le (λ p : row, negb (Qeq_bool (get p 3) 0)) buf').
  lia.
Qed.

Lemma smooth_cloud_never_grows_witness :
  event_number smoothed_example = event_number example_cloud
  ∧ (length (cloud smoothed_example) ≤ length (cloud example_cloud))%nat.
Proof.
  exact (smooth_cloud_never_grows example_cloud smoothed_example 10 eq_refl).
Defined.

Lemma unique_rows_index_ascending (ar : list row) a b i j (ki kj : row) :
  (a < b)%nat →
  Np.unique_rows_index ar !! a = Some i → Np.unique_rows_index ar !! b = Some j →
  ar !! i = Some ki → ar !! j = Some kj → Np.row_less ki kj = true.
Proof.
  unfold Np.unique_rows_index.
  destruct (unique1d_spec Np.row_less Np.row_eqb row_less_irrefl row_less_trans
              row_less_ntrans row_eqb_equiv ar) as (Hmem & Hstrict & _).
  set (U := Np.unique1d Np.row_less Np.row_eqb ar) in *.
  intros Hab Ha Hb Ei Ej. rewrite list_lookup_fmap in Ha, Hb.
  destruct (U !! a) as [[k1 i1]|] eqn:Ua; [|discriminate].
  destruct (U !! b) as [[k2 i2]|] eqn:Ub; [|discriminate].
  cbn in Ha, Hb. injection Ha as ->. injection Hb as ->.
  pose proof (StronglySorted_lookup_lt _ _ Hstrict _ _ _ _ Hab Ua Ub) as Hlt.
  pose proof (Hmem _ _ (list_elem_of_lookup_2 _ _ _ Ua)) as E1.
  pose proof (Hmem _ _ (list_elem_of_lookup_2 _ _ _ Ub)) as E2.
  rewrite Ei in E1. rewrite Ej in E2. injection E1 as ->. injection E2 as ->.
  exact Hlt.
Qed.

(** The keys of two cells.  On coordinates up to 10^9 in size the cells
    are far from the integers that two doubles cannot tell apart after the
    division by 100, and the order of the keys is the order of the
    cells. *)
Lemma key_error (k : Z) :
  (Z.abs k ≤ 200000000002)%Z →
  (Qabs (Np.fl (inject_Z k / 100) - inject_Z k / 100) <= 1 # 1000)%Q.
Proof.
  intros Hk. destruct (decide (k = 0%Z)) as [->|Hne].
  { assert (E : (Np.fl (inject_Z 0 / 100) == 0)%Q) by (apply fl_zero; reflexivity).
    assert (Qabs (Np.fl (inject_Z 0 / 100) - inject_Z 0 / 100) == 0)%Q as ->
      by (rewrite E; reflexivity).
    discriminate. }
  assert (Habs : (Qabs (inject_Z k / 100) == inject_Z (Z.abs k) / 100)%Q).
  { unfold Qdiv. rewrite Qabs_Qmult. destruct k; reflexivity. }
  assert (Hlo : (1 <= inject_Z (Z.abs k))%Q)
    by (change 1%Q with (inject_Z 1); rewrite <- Zle_Qle; lia).
  assert (Hhi : (inject_Z (Z.abs k) <= 200000000002)%Q)
    by (change 200000000002%Q with (inject_Z 200000000002);
        rewrite <- Zle_Qle; exact Hk).
  pose proof (fl_relative (inject_Z k / 100)) as Hrel.
  rewrite Habs in Hrel.
  assert (Hmin : (2 ^ (-1022) <= 2 ^ (-7))%Q)
    by (apply Qpower_le_compat_l; [lia|discriminate]).
  change (2 ^ (-7))%Q with (1 # 128)%Q in Hmin.
  revert Hmin Hrel. generalize (2 ^ (-1022))%Q.
  generalize (Qabs (Np.fl (inject_Z k / 100) - inject_Z k / 100)).
  revert Hlo Hhi. generalize (inject_Z (Z.abs k)). intros a Hlo Hhi t u Hmin Hrel.
  assert (Ha : (1 # 100 <= a / 100)%Q)
    by (apply Qle_shift_div_l; [reflexivity|lra]).
  assert (Hb : (a / 100 <= 2000000001)%Q)
    by (apply Qle_shift_div_r; [reflexivity|lra]).
  specialize (Hrel ltac:(lra)). revert Hrel Ha Hb. generalize (a / 100)%Q.
  intros v Hrel Ha Hb. lra.
Qed.

Lemma key_lt (k1 k2 : Z) :
  (Z.abs k1 ≤ 200000000002)%Z → (Z.abs k2 ≤ 200000000002)%Z → (k1 < k2)%Z →
  (Np.fl (inject_Z k1 / 100) < Np.fl (inject_Z k2 / 100))%Q.
Proof.
  intros H1 H2 Hlt. pose proof (key_error k1 H1) as E1.
  pose proof (key_error k2 H2) as E2.
  apply Qabs_Qle_condition in E1, E2.
  assert (Hk : (inject_Z k1 + 1 <= inject_Z k2)%Q).
  { change 1%Q with (inject_Z 1). rewrite <- inject_Z_plus, <- Zle_Qle. lia. }
  assert (Hd : (inject_Z k1 / 100 + (1 # 100) <= inject_Z k2 / 100)%Q).
  { assert (inject_Z k1 / 100 + (1 # 100) == (inject_Z k1 + 1) / 100)%Q as -> by field.
    unfold Qdiv. apply Qmult_le_compat_r; [exact Hk|discriminate]. }
  revert E1 E2 Hd.
  generalize (Np.fl (inject_Z k1 / 100)) (Np.fl (inject_Z k2 / 100)).
  generalize (inject_Z k1 / 100)%Q (inject_Z k2 / 100)%Q. intros. lra.
Qed.

Lemma cell_bound (x : Q) :
  (Qabs x <= 1000000000)%Q → (Z.abs (cell x) ≤ 200000000002)%Z.
Proof.
  intros Hx. unfold cell, scaled.
  pose proof (fl_bound (x * 100)) as Hb. rewrite Qabs_Qmult in Hb.
  change (Qabs 100) with 100%Q in Hb.
  pose proof (rint_spec (Np.fl (x * 100))) as Hr.
  revert Hb Hr. generalize (Np.fl (x * 100)). intros y Hb.
  generalize (Np.rint y). intros k Hr.
  assert (Hy : (Qabs y <= 200000000001)%Q) by lra.
  apply Qabs_Qle_condition in Hy, Hr.
  assert (Hk : (-200000000002 <= inject_Z k <= 200000000002)%Q) by lra.
  destruct Hk as [Hk1 Hk2].
  change (-200000000002)%Q with (inject_Z (-200000000002)) in Hk1.
  change 200000000002%Q with (inject_Z 200000000002) in Hk2.
  rewrite <- Zle_Qle in Hk1, Hk2. lia.
Qed.

Lemma key_cell_order (x y : Q) :
  (Qabs x <= 1000000000)%Q → (Qabs y <= 1000000000)%Q →
  ((Np.round 2 x < Np.round 2 y)%Q → (cell x < cell y)%Z)
  ∧ ((Np.round 2 x == Np.round 2 y)%Q → cell x = cell y).
Proof.
  intros Hx Hy. rewrite !round_scaled.
  pose proof (cell_bound x Hx) as Bx. pose proof (cell_bound y Hy) as By.
  split; intros Hk.
  - destruct (Z.lt_trichotomy (cell x) (cell y)) as [Hlt|[E|Hgt]]; [exact Hlt| |].
    + rewrite E in Hk. lra.
    + pose proof (key_lt _ _ By Bx Hgt). lra.
  - destruct (Z.lt_trichotomy (cell x) (cell y)) as [Hlt|[E|Hgt]]; [|exact E|].
    + pose proof (key_lt _ _ Bx By Hlt). lra.
    + pose proof (key_lt _ _ By Bx Hgt). lra.
Qed.

(** X11.  Smoothing reorders an N x 8 cloud: its rows come out in the
    strictly ascending lexicographic order of their keys (x, then y, then
    z, each after np.round to two decimals), whatever the order of the
    points was; for rows with coordinates up to 10^9 in size that is the
    order of their cells on the grid of hundredths, so that two rows of
    one cell in x are ordered by y, whichever has the larger x. *)
Theorem smooth_cloud_order (self self' : PointCloud) (m : Q) :
  Forall (λ r : row, length r = 8%nat) (cloud self) →
  smooth_cloud self m = Ok self' →
  ∀ a b r1 r2, (a < b)%nat →
    cloud self' !! a = Some r1 → cloud self' !! b = Some r2 →
    Np.row_less (rounded_position r1) (rounded_position r2) = true
    ∧ ((∀ j, (j < 3)%nat → (Qabs (get r1 j) <= 1000000000)%Q
                            ∧ (Qabs (get r2 j) <= 1000000000)%Q) →
       (cell (get r1 0) < cell (get r2 0))%Z
       ∨ cell (get r1 0) = cell (get r2 0)
         ∧ ((cell (get r1 1) < cell (get r2 1))%Z
            ∨ cell (get r1 1) = cell (get r2 1)
              ∧ (cell (get r1 2) < cell (get r2 2))%Z)).
Proof.
  intros Hwide Hrun a b r1 r2 Hab Ha Hb.
  apply smooth_cloud_Ok in Hrun as (cands & Hc & _ & Hrows).
  pose proof (smooth_candidates_rows _ _ _ _ Hwide Hc) as Hlen.
  destruct (Forall2_lookup_r _ _ _ _ _ Hrows Ha) as (i & Hi & Ei).
  destruct (Forall2_lookup_r _ _ _ _ _ Hrows Hb) as (j & Hj & Ej).
  assert (Hless : Np.row_less (rounded_position r1) (rounded_position r2) = true).
  { eapply (unique_rows_index_ascending (map rounded_position cands));
      [exact Hab | exact Hi | exact Hj | |].
    - change (map rounded_position cands) with (rounded_position <$> cands).
      rewrite list_lookup_fmap, Ei. reflexivity.
    - change (map rounded_position cands) with (rounded_position <$> cands).
      rewrite list_lookup_fmap, Ej. reflexivity. }
  split; [exact Hless|]. intros Hbound.
  rewrite Forall_forall in Hlen.
  pose proof (Hlen r1 (list_elem_of_lookup_2 _ _ _ Ei)) as L1.
  pose proof (Hlen r2 (list_elem_of_lookup_2 _ _ _ Ej)) as L2.
  do 8 (destruct r1 as [|? r1]; [discriminate L1|]).
  do 8 (destruct r2 as [|? r2]; [discriminate L2|]).
  cbn [rounded_position take map] in Hless. unfold get. cbn [lookup list_lookup default].
  pose proof (Hbound 0%nat ltac:(lia)) as [B0 B0'].
  pose proof (Hbound 1%nat ltac:(lia)) as [B1 B1'].
  pose proof (Hbound 2%nat ltac:(lia)) as [B2 B2'].
  unfold get in B0, B0', B1, B1', B2, B2'.
  cbn [lookup list_lookup default] in B0, B0', B1, B1', B2, B2'.
  destruct (key_cell_order _ _ B0 B0') as [Hx1 Hx2].
  destruct (key_cell_order _ _ B1 B1') as [Hy1 Hy2].
  destruct (key_cell_order _ _ B2 B2') as [Hz1 Hz2].
  apply row_less_cons_true in Hless as [H|[E Hless]]; [left; auto|].
  right. split; [auto|].
  apply row_less_cons_true in Hless as [H|[E' Hless]]; [left; auto|].
  right. split; [auto|].
  apply row_less_cons_true in Hless as [H|[_ Hless]]; [auto|].
  discriminate Hless.
Qed.

Lemma smooth_cloud_order_witness :
  smooth_cloud example_cloud 10 = Ok smoothed_example
  ∧ ∀ a b r1 r2, (a < b)%nat →
      cloud smoothed_example !! a = Some r1 → cloud smoothed_example !! b = Some r2 →
      Np.row_less (rounded_position r1) (rounded_position r2) = true
      ∧ ((∀ j, (j < 3)%nat → (Qabs (get r1 j) <= 1000000000)%Q
                              ∧ (Qabs (get r2 j) <= 1000000000)%Q) →
         (cell (get r1 0) < cell (get r2 0))%Z
         ∨ cell (get r1 0) = cell (get r2 0)
           ∧ ((cell (get r1 1) < cell (get r2 1))%Z
              ∨ cell (get r1 1) = cell (get r2 1)
                ∧ (cell (get r1 2) < cell (get r2 2))%Z)).
Proof.
  split; [vm_compute; reflexivity|].
  apply (smooth_cloud_order example_cloud smoothed_example 10).
  - repeat constructor.
  - vm_compute. reflexivity.
Defined.

(** ** Smoothing: the rows that are kept *)

Lemma smooth_candidates_written cl m (cands : list row) i (p avg : row) :
  smooth_candidates cl m = Ok cands →
  cl !! i = Some p → smooth_value cl m p = Ok (Some avg) →
  ¬ (get avg 3 == 0)%Q → avg ∈ cands.
Proof.
  unfold smooth_candidates. intros Hrun Hp Hv Hamp.
  destruct (foldM _ _ _) as [buf'|e|] eqn:Hloop; [|discriminate..].
  cbn [mbind result_bind] in Hrun. injection Hrun as <-.
  destruct (smooth_loop cl m (length cl) 0 _ _ ltac:(lia) Hloop) as (_ & _ & Hin).
  unfold Np.zeros in Hin. rewrite length_replicate in Hin.
  assert (Hi : (i < length cl)%nat) by (apply lookup_lt_is_Some; eexists; exact Hp).
  destruct (Hin i ltac:(lia) Hi) as (p' & v & Hp' & Hv' & E).
  rewrite Hp in Hp'. injection Hp' as <-. rewrite Hv in Hv'. injection Hv' as <-.
  apply list_elem_of_In, filter_In. split.
  - apply list_elem_of_In. eapply list_elem_of_lookup_2, E.
  - apply negb_true_iff, Qeq_bool_false, Hamp.
Qed.

(** X12.  No smoothed point is lost but to a zero amplitude: for every
    point whose iteration writes a weighted average with an amplitude
    that is not zero, the smoothed cloud holds a row with the key of that
    average, its position after np.round to two decimals.  (A written
    average whose amplitude is zero is dropped with the rows that no
    iteration wrote.) *)
Theorem smooth_cloud_keeps_smoothed (self self' : PointCloud) (m : Q)
    (i : nat) (p avg : row) :
  smooth_cloud self m = Ok self' →
  cloud self !! i = Some p →
  smooth_value (cloud self) m p = Ok (Some avg) →
  ¬ (get avg 3 == 0)%Q →
  ∃ r, r ∈ cloud self' ∧ same_rounded_position r avg.
Proof.
  intros Hrun Hp Hv Hamp.
  apply smooth_cloud_Ok in Hrun as (cands & Hc & _ & Hsel).
  pose proof (smooth_candidates_written _ _ _ _ _ _ Hc Hp Hv Hamp) as Hin.
  apply list_elem_of_lookup_1 in Hin as [j Hj].
  destruct (unique_rows_index_spec (map rounded_position cands))
    as (_ & _ & _ & Hcover).
  destruct (Hcover j (rounded_position avg)) as (i' & ki & Hi' & _ & Ei & Heq).
  { change (map rounded_position cands) with (rounded_position <$> cands).
    rewrite list_lookup_fmap, Hj. reflexivity. }
  apply list_elem_of_lookup_1 in Hi' as [a Ha].
  destruct (Forall2_lookup_l _ _ _ _ _ Hsel Ha) as (r & Hr & Er).
  exists r. split; [eapply list_elem_of_lookup_2, Hr|].
  change (map rounded_position cands) with (rounded_position <$> cands) in Ei.
  rewrite list_lookup_fmap, Er in Ei. cbn in Ei. injection Ei as <-.
  apply row_eqb_Forall2, Heq.
Qed.

Lemma smooth_cloud_keeps_smoothed_witness :
  ∃ r, r ∈ cloud smoothed_example
       ∧ same_rounded_position r
           [200 # 2; 0 # 2; 2 # 2; 2 # 2; 6 # 2; 10 # 2; 2 # 2; 2 # 2]%Q.
Proof.
  apply (smooth_cloud_keeps_smoothed example_cloud smoothed_example 10 3
           [100; 0; 2; 1; 4; 5; 2; 1]%Q).
  - vm_compute. reflexivity.
  - reflexivity.
  - vm_compute. reflexivity.
  - intros E. discriminate E.
Defined.

Lemma positive_weights (a : list row) :
  (∀ r, r ∈ a → (0 < get r 3)%Q) → a ≠ [] →
  (0 < Np.sum (map (λ q, get q 3) a))%Q.
Proof.
  intros Hall Hne.
  assert (H0 : ∀ l : list row, (∀ r, r ∈ l → (0 < get r 3)%Q) →
                (0 <= Np.sum (map (λ q, get q 3) l))%Q).
  { induction l as [|r l IH]; intros Hl; cbn [map]; [cbn; lra|].
    change (Np.sum (?x :: ?k)) with (x + Np.sum k)%Q.
    pose proof (Hl r ltac:(left)). pose proof (IH (λ r' Hr', Hl r' ltac:(right; exact Hr'))).
    lra. }
  destruct a as [|r a]; [congruence|]. cbn [map].
  change (Np.sum (?x :: ?k)) with (x + Np.sum k)%Q.
  pose proof (Hall r ltac:(left)).
  pose proof (H0 a (λ r' Hr', Hall r' ltac:(right; exact Hr'))). lra.
Qed.

(** X13.  On a cloud that has a point and whose amplitudes are all
    positive, smooth_cloud raises nothing: the weights of a neighborhood
    then never sum to zero, and the exception of np.average is out of
    reach. *)
Theorem smooth_cloud_positive_amplitudes (self : PointCloud) (m : Q) :
  cloud self ≠ [] →
  (∀ p, p ∈ cloud self → (0 < get p 3)%Q) →
  (∀ p, (2 ≤ length (neighborhood (cloud self) p m))%nat →
        ¬ zero_weight (cloud self) m p)
  ∧ ∃ self', smooth_cloud self m = Ok self'.
Proof.
  intros _ Hpos.
  assert (Hnb : ∀ q r, r ∈ neighborhood (cloud self) q m → r ∈ cloud self).
  { intros q r Hr. apply elem_of_neighborhood in Hr as [Hr _]. exact Hr. }
  assert (Hw : ∀ p, (2 ≤ length (neighborhood (cloud self) p m))%nat →
                    ¬ zero_weight (cloud self) m p).
  { intros p Hge Hz. unfold zero_weight in Hz.
    assert (neighborhood (cloud self) p m ≠ []) as Hne
      by (intros E; rewrite E in Hge; cbn in Hge; lia).
    pose proof (positive_weights (neighborhood (cloud self) p m)
                  (λ r Hr, Hpos r (Hnb _ _ Hr)) Hne). lra. }
  split; [exact Hw|].
  - apply smooth_cloud_total. intros i p Hp. apply smooth_value_defined, Hw.
Qed.

Lemma smooth_cloud_positive_amplitudes_witness :
  (∀ p, (2 ≤ length (neighborhood (cloud example_cloud) p 10))%nat →
        ¬ zero_weight (cloud example_cloud) 10 p)
  ∧ ∃ self', smooth_cloud example_cloud 10 = Ok self'.
Proof.
  apply (smooth_cloud_positive_amplitudes example_cloud 10); [discriminate|].
  intros p Hp. unfold example_cloud in Hp. cbn [cloud] in Hp.
  repeat (apply elem_of_cons in Hp as [->|Hp]; [reflexivity|]).
  exfalso. eapply not_elem_of_nil, Hp.
Defined.

(** ** The other methods of PointCloud *)

(** X14.  Validity through the life of a cloud: a new cloud is not
    valid; a cloud loaded from an event or from hdf5 data is valid exactly
    when the event number it is given is not the sentinel; calibrating,
    smoothing and sorting keep the event number, and with it the
    validity. *)
Theorem is_valid_lifecycle `{MathLib} (INVALID_EVENT_NUMBER : Z) (self : PointCloud) :
  is_valid INVALID_EVENT_NUMBER (PointCloud_init INVALID_EVENT_NUMBER) = false
  ∧ (∀ event pmap corrector,
       is_valid INVALID_EVENT_NUMBER
         (load_cloud_from_get_event self event pmap corrector).1
       = negb (number event =? INVALID_EVENT_NUMBER)%Z)
  ∧ (∀ data n,
       is_valid INVALID_EVENT_NUMBER (load_cloud_from_hdf5_data self data n)
       = negb (n =? INVALID_EVENT_NUMBER)%Z)
  ∧ (∀ m w L ic self',
       calibrate_z_position self m w L ic = Ok self' →
       is_valid INVALID_EVENT_NUMBER self' = is_valid INVALID_EVENT_NUMBER self)
  ∧ (∀ m self',
       smooth_cloud self m = Ok self' →
       is_valid INVALID_EVENT_NUMBER self' = is_valid INVALID_EVENT_NUMBER self)
  ∧ (∀ argsort self',
       sort_in_z argsort self = Ok self' →
       is_valid INVALID_EVENT_NUMBER self' = is_valid INVALID_EVENT_NUMBER self).
Proof.
  unfold is_valid. split; [cbn; apply negb_false_iff, Z.eqb_refl|].
  split.
  { intros event pmap corrector. unfold load_cloud_from_get_event.
    destruct (foldl _ _ _) as [[? ?] ?]. reflexivity. }
  split; [reflexivity|]. split; [|split].
  - intros m w L ic self' Hrun. apply calibrate_z_position_Ok_inv in Hrun.
    subst self'. reflexivity.
  - intros m self' Hrun. apply smooth_cloud_Ok in Hrun as (_ & _ & -> & _).
    reflexivity.
  - intros argsort self' Hrun. unfold sort_in_z in Hrun.
    destruct (Np.index_rows _ _); [|discriminate..]. cbn in Hrun.
    injection Hrun as <-. reflexivity.
Qed.

(** X15.  Calibration changes the spatial coordinates of a point only in
    z: after it, retrieve_spatial_coordinates gives x and y as they were
    and the calibrated z. *)
Theorem retrieve_spatial_coordinates_calibrated (self : PointCloud)
    (m w L ic : Q) (i : nat) (p : row) :
  ¬ (w == m)%Q → cloud self !! i = Some p → length p = 8%nat →
  retrieve_spatial_coordinates self !! i = Some [get p 0; get p 1; get p 2]
  ∧ ∃ self', calibrate_z_position self m w L ic = Ok self'
      ∧ length (retrieve_spatial_coordinates self') = length (cloud self)
      ∧ retrieve_spatial_coordinates self' !! i
        = Some [get p 0; get p 1; ((w - get p 6) / (w - m) * L - ic)%Q].
Proof.
  intros Hne Hp Hl. unfold retrieve_spatial_coordinates.
  do 8 (destruct p as [|? p]; [discriminate Hl|]).
  destruct p; [|discriminate Hl].
  split; [rewrite list_lookup_fmap, Hp; reflexivity|].
  eexists. split; [apply calibrate_z_position_ok, Hne|]. cbn [cloud].
  split; [rewrite !length_fmap; reflexivity|].
  rewrite !list_lookup_fmap, Hp. reflexivity.
Qed.

Lemma retrieve_spatial_coordinates_calibrated_witness :
  retrieve_spatial_coordinates example_cloud !! 1%nat = Some [0; 0; 1]%Q
  ∧ ∃ self', calibrate_z_position example_cloud 50 500 1000 0 = Ok self'
      ∧ length (retrieve_spatial_coordinates self') = 5%nat
      ∧ retrieve_spatial_coordinates self' !! 1%nat
        = Some [0%Q; 0%Q; ((500 - 1) / (500 - 50) * 1000 - 0)%Q].
Proof.
  apply (retrieve_spatial_coordinates_calibrated example_cloud 50 500 1000 0 1
           [0; 0; 1; 3; 1; 3; 1; 1]%Q); [|reflexivity..].
  intros E. discriminate E.
Defined.

(** ** The loop of phase 1 *)

Section Phase1Loop.
Import Phase1.
Context `{MathLib} (INVALID_EVENT_NUMBER : Z).
Context (run : Z) (pad_map : PadMap) (corrector : ElectronCorrector).
Context (frib_params : FribParameters) (detector_params : DetectorParameters).
Context (flush_val : Z).
Context (event_group : Z → option GetEvent) (frib_evt_group : Z → option FribEvent).

#[local] Abbreviation body :=
  (body INVALID_EVENT_NUMBER run pad_map corrector frib_params detector_params
     flush_val event_group frib_evt_group).
#[local] Abbreviation tick := (tick run flush_val).
#[local] Abbreviation loaded := (loaded INVALID_EVENT_NUMBER pad_map corrector).
#[local] Abbreviation written :=
  (written INVALID_EVENT_NUMBER pad_map corrector frib_params detector_params
     frib_evt_group).
#[local] Abbreviation warnings_of :=
  (warnings_of INVALID_EVENT_NUMBER pad_map corrector event_group).
#[local] Abbreviation ic_attrs := (ic_attrs frib_evt_group).
#[local] Abbreviation message := (Build_StatusMessage run CLOUD 1).

Lemma shape_of_calibrated m w L ic (cl : list row) :
  shape_of (calibrated m w L ic <$> cl) = shape_of cl.
Proof.
  unfold shape_of. rewrite length_fmap. f_equal.
  destruct cl as [|p cl]; [reflexivity|]. cbn. unfold calibrated.
  apply length_insert.
Qed.

Lemma tick_keeps (st : state) :
  cloud_group (tick st) = cloud_group st ∧ log (tick st) = log st.
Proof. unfold Phase1.tick. destruct (_ <? _)%Z; split; reflexivity. Qed.

Lemma loaded_event_number (event : GetEvent) :
  event_number (loaded event).1 = number event.
Proof.
  unfold Phase1.loaded, load_cloud_from_get_event.
  destruct (foldl _ _ _) as [[? ?] ?]. reflexivity.
Qed.

Lemma body_no_event (st : state) (idx : Z) :
  event_group idx = None → body st idx = Done (tick st).
Proof. intros E. unfold Phase1.body. rewrite E. reflexivity. Qed.

Lemma body_event (st : state) (idx : Z) (event : GetEvent) :
  ¬ (window_time_bucket detector_params == micromegas_time_bucket detector_params)%Q →
  number event = idx →
  event_group idx = Some event →
  cloud_group st !! idx = None →
  ∃ dataset,
    body st idx
    = Done {| count := count (tick st); queue := queue (tick st);
              cloud_group := <[idx := dataset]> (cloud_group st);
              log := log st ++ (loaded event).2 |}
    ∧ written idx event dataset.
Proof.
  intros Hne Hnum Hev Hfree. unfold Phase1.body. rewrite Hev.
  pose proof (loaded_event_number event) as Hn. unfold Phase1.loaded in Hn |- *.
  unfold Phase1.written, Phase1.loaded.
  destruct (load_cloud_from_get_event _ event pad_map (Some corrector))
    as [pc warnings] eqn:Hload.
  cbn [fst snd] in Hn |- *.
  destruct (tick_keeps st) as [Hg Hl]. rewrite Hg, Hl, Hn, Hnum.
  unfold create_dataset. rewrite Hfree. cbn [mbind io_bind].
  assert (∀ ds ic,
    calibrate_and_write detector_params (tick st) (log st ++ warnings) pc ds ic
    = (if decide (shape_of (cloud pc) = shape ds)
       then Done {| count := count (tick st); queue := queue (tick st);
                    cloud_group :=
                      <[idx := {| shape := shape ds; attrs := attrs ds;
                                  data := calibrated (micromegas_time_bucket detector_params)
                                            (window_time_bucket detector_params)
                                            (detector_length detector_params) ic
                                          <$> cloud pc |}]> (cloud_group st);
                    log := log st ++ warnings |}
       else Raised ShapeMismatch)) as Hcw.
  { intros ds ic. unfold calibrate_and_write.
    rewrite (calibrate_z_position_ok _ _ _ _ _ Hne). cbn [lift mbind io_bind].
    unfold write_all. cbn [cloud event_number]. rewrite shape_of_calibrated.
    destruct (decide _); [|reflexivity]. cbn [mbind io_bind].
    rewrite Hg, Hn, Hnum. reflexivity. }
  unfold Phase1.ic_attrs, ic_attr, ic_peak_of, ic_correction_of.
  destruct (frib_evt_group idx) as [frib_event|]; cbn [mbind option_bind from_option];
    [destruct (get_good_ic_peak frib_event) as [ic_peak|];
       cbn [from_option]; [destruct (correct_ic_time frib_params)|]|];
    rewrite Hcw; cbn [shape set_attr attrs data];
    (destruct (decide _) as [_|Hd]; [|exfalso; apply Hd; reflexivity]);
    eexists; (split; [reflexivity|]); cbn [shape attrs data];
    (split; [reflexivity|]);
    (split; [symmetry; apply shape_of_calibrated|]);
    (split; [reflexivity|]); (split; [reflexivity|]); (split; [reflexivity|]);
    intros key Hkey; rewrite !not_elem_of_cons in Hkey;
    destruct Hkey as (? & ? & ? & _);
    rewrite !lookup_insert_ne by congruence; apply lookup_empty.
Qed.

Lemma for_each_body (l : list Z) : ∀ st : state,
  ¬ (window_time_bucket detector_params == micromegas_time_bucket detector_params)%Q →
  (∀ idx event, event_group idx = Some event → number event = idx) →
  NoDup l →
  (∀ idx, idx ∈ l → cloud_group st !! idx = None) →
  ∃ st', for_each body st l = Done st'
    ∧ log st' = log st ++ warnings_of l
    ∧ (∀ idx, idx ∉ l ∨ event_group idx = None →
         cloud_group st' !! idx = cloud_group st !! idx)
    ∧ (∀ idx event, idx ∈ l → event_group idx = Some event →
         ∃ dataset, cloud_group st' !! idx = Some dataset
                    ∧ written idx event dataset).
Proof.
  induction l as [|i l IH]; intros st Hne Hnum Hnd Hfree.
  { exists st. split; [reflexivity|]. split; [symmetry; apply app_nil_r|].
    split; [reflexivity|]. intros idx event Hin. inversion Hin. }
  apply NoDup_cons in Hnd as [Hi Hnd]. cbn [for_each].
  unfold Phase1.warnings_of. cbn [fmap list_fmap concat].
  fold (warnings_of l).
  destruct (event_group i) as [event|] eqn:Hev.
  - destruct (body_event st i event Hne (Hnum _ _ Hev) Hev
                (Hfree i ltac:(left))) as (dataset & E & Hw).
    rewrite E. cbn [mbind io_bind].
    match goal with |- context [for_each _ ?s l] =>
      assert (∀ idx, idx ∈ l → cloud_group s !! idx = None) as Hfree';
        [|destruct (IH s Hne Hnum Hnd Hfree') as (st' & Hrun & Hlog & Hout & Hin)]
    end.
    2:{ exists st'. split; [exact Hrun|]. cbn [log cloud_group] in *.
        split; [rewrite Hlog, <- app_assoc; reflexivity|]. split.
        - intros idx [Hidx|Hidx].
          + rewrite not_elem_of_cons in Hidx. destruct Hidx as [Hidx Hl].
            rewrite (Hout idx (or_introl Hl)). apply lookup_insert_ne. congruence.
          + assert (idx ≠ i) by congruence.
            rewrite (Hout idx (or_intror Hidx)). apply lookup_insert_ne. congruence.
        - intros idx event' Hidx Hev'. apply elem_of_cons in Hidx as [->|Hidx].
          + rewrite (Hout i (or_introl Hi)). exists dataset.
            split; [apply lookup_insert_eq|]. congruence.
          + apply (Hin idx event' Hidx Hev'). }
    cbn [cloud_group]. intros idx Hidx.
    rewrite lookup_insert_ne by (intros ->; contradiction).
    apply Hfree. right. exact Hidx.
  - rewrite (body_no_event st i Hev). cbn [mbind io_bind from_option app].
    destruct (tick_keeps st) as [Hg Hl].
    destruct (IH (tick st) Hne Hnum Hnd) as (st' & Hrun & Hlog & Hout & Hin).
    { intros idx Hidx. rewrite Hg. apply Hfree. right. exact Hidx. }
    exists st'. split; [exact Hrun|]. rewrite Hlog, Hl, Hg in *.
    split; [reflexivity|]. split.
    + intros idx [Hidx|Hidx]; apply Hout; [|right; exact Hidx].
      rewrite not_elem_of_cons in Hidx. left. apply Hidx.
    + intros idx event' Hidx Hev'. apply elem_of_cons in Hidx as [->|Hidx];
        [congruence|]. apply (Hin idx event' Hidx Hev').
Qed.

Lemma body_progress (st st' : state) (idx : Z) :
  body st idx = Done st' →
  count st' = count (tick st) ∧ queue st' = queue (tick st).
Proof.
  unfold Phase1.body. destruct (event_group idx) as [event|].
  2:{ intros [= <-]. split; reflexivity. }
  destruct (load_cloud_from_get_event _ event pad_map (Some corrector))
    as [pc warnings].
  unfold create_dataset. destruct (cloud_group (tick st) !! event_number pc);
    [discriminate|]. cbn [mbind io_bind].
  assert (∀ lg ds ic,
    calibrate_and_write detector_params (tick st) lg pc ds ic = Done st' →
    count st' = count (tick st) ∧ queue st' = queue (tick st)) as Hcw.
  { intros lg ds ic. unfold calibrate_and_write.
    destruct (calibrate_z_position _ _ _ _ _); [|discriminate..].
    cbn [lift mbind io_bind]. unfold write_all.
    destruct (decide _); [|discriminate]. cbn [mbind io_bind].
    intros [= <-]. split; reflexivity. }
  destruct (frib_evt_group idx) as [frib_event|]; [|apply Hcw].
  destruct (get_good_ic_peak frib_event); [|apply Hcw].
  destruct (correct_ic_time frib_params); apply Hcw.
Qed.

Lemma for_each_progress (queue0 : list StatusMessage) (l : list Z) :
  ∀ (st st' : state) (q : nat),
  (0 ≤ flush_val)%Z →
  for_each body st l = Done st' →
  queue st = queue0 ++ replicate q message →
  (0 ≤ count st ≤ flush_val + 1)%Z →
  ∃ q' : nat,
    queue st' = queue0 ++ replicate q' message
    ∧ (count st' + Z.of_nat q' * (flush_val + 1)
       = count st + Z.of_nat q * (flush_val + 1) + Z.of_nat (length l))%Z
    ∧ (0 ≤ count st' ≤ flush_val + 1)%Z
    ∧ (l ≠ [] → 1 ≤ count st')%Z.
Proof.
  induction l as [|i l IH]; intros st st' q HF Hrun Hq Hc.
  { injection Hrun as <-. exists q. split; [exact Hq|]. cbn [length].
    split; [lia|]. split; [exact Hc|]. intros E. contradiction. }
  cbn [for_each] in Hrun. destruct (body st i) as [st1| |] eqn:E; [|discriminate..].
  cbn [mbind io_bind] in Hrun. destruct (body_progress _ _ _ E) as [Hc1 Hq1].
  assert (∃ q1 : nat,
    queue st1 = queue0 ++ replicate q1 message
    ∧ (count st1 + Z.of_nat q1 * (flush_val + 1)
       = count st + Z.of_nat q * (flush_val + 1) + 1)%Z
    ∧ (1 ≤ count st1 ≤ flush_val + 1)%Z) as (q1 & Hq1' & Heq & Hc1').
  { rewrite Hc1, Hq1. unfold Phase1.tick.
    destruct (flush_val <? count st)%Z eqn:Hlt; cbn [count queue].
    - apply Z.ltb_lt in Hlt. exists (S q). rewrite Hq, <- app_assoc.
      split; [f_equal; symmetry; apply replicate_cons_app|].
      rewrite Nat2Z.inj_succ, Z.mul_succ_l. lia.
    - apply Z.ltb_ge in Hlt. exists q. split; [exact Hq|]. lia. }
  destruct (IH st1 st' q1 HF Hrun Hq1' ltac:(lia)) as (q' & Hq' & Heq' & Hc' & Hne).
  exists q'. split; [exact Hq'|]. cbn [length]. rewrite Nat2Z.inj_succ.
  split; [lia|]. split; [exact Hc'|]. intros _.
  destruct l as [|j l]; [|apply Hne; discriminate].
  injection Hrun as <-. lia.
Qed.

#[local] Abbreviation loop :=
  (loop INVALID_EVENT_NUMBER run pad_map corrector frib_params detector_params
     flush_val event_group frib_evt_group).

Lemma loop_spec (min_event max_event : Z) (queue0 : list StatusMessage)
    (log0 : list log_entry) :
  ¬ (window_time_bucket detector_params == micromegas_time_bucket detector_params)%Q →
  (∀ idx event, event_group idx = Some event → number event = idx) →
  ∃ st', loop (start queue0 log0) min_event max_event = Done st'
    ∧ log st' = log0 ++ warnings_of (event_range min_event max_event)
    ∧ (∀ idx, ¬ (min_event ≤ idx ≤ max_event)%Z ∨ event_group idx = None →
         cloud_group st' !! idx = None)
    ∧ (∀ idx event, (min_event ≤ idx ≤ max_event)%Z →
         event_group idx = Some event →
         ∃ dataset, cloud_group st' !! idx = Some dataset
                    ∧ written idx event dataset).
Proof.
  intros Hne Hnum. unfold Phase1.loop, event_range.
  destruct (for_each_body (seqZ min_event (max_event + 1 - min_event))
              (start queue0 log0) Hne Hnum (NoDup_seqZ _ _)
              (λ idx _, lookup_empty idx))
    as (st' & Hrun & Hlog & Hout & Hin).
  exists st'. split; [exact Hrun|]. split; [exact Hlog|]. split.
  - intros idx Hidx. rewrite Hout; [apply lookup_empty|].
    destruct Hidx as [Hidx|Hidx]; [left|right; exact Hidx].
    rewrite elem_of_seqZ. lia.
  - intros idx event Hidx. apply Hin. rewrite elem_of_seqZ. lia.
Qed.

(** X16.  The datasets of a run.  With distinct drift references, and
    events that carry the index they are read under, the loop over
    min_event .. max_event completes; the group then holds a dataset for
    exactly the indices of the range that have an event; its array is the
    cloud of the event, loaded with the corrector and calibrated with the
    ion chamber correction of the event, it has one row for each peak of
    the event, and it fills the shape the dataset was created with. *)
Theorem phase_1_loop_datasets (min_event max_event : Z)
    (queue0 : list StatusMessage) (log0 : list log_entry) :
  ¬ (window_time_bucket detector_params == micromegas_time_bucket detector_params)%Q →
  (∀ idx event, event_group idx = Some event → number event = idx) →
  ∃ st', loop (start queue0 log0) min_event max_event = Done st'
    ∧ (∀ idx, is_Some (cloud_group st' !! idx)
              ↔ (min_event ≤ idx ≤ max_event)%Z ∧ is_Some (event_group idx))
    ∧ (∀ idx event dataset,
         event_group idx = Some event →
         cloud_group st' !! idx = Some dataset →
         data dataset
         = calibrated (micromegas_time_bucket detector_params)
             (window_time_bucket detector_params)
             (detector_length detector_params)
             (ic_correction_of frib_params frib_evt_group idx)
           <$> cloud (load_cloud_from_get_event
                        (PointCloud_init INVALID_EVENT_NUMBER) event pad_map
                        (Some corrector)).1
         ∧ length (data dataset) = total_peaks event
         ∧ shape dataset = shape_of (data dataset)).
Proof.
  intros Hne Hnum.
  destruct (loop_spec min_event max_event queue0 log0 Hne Hnum)
    as (st' & Hrun & _ & Hout & Hin).
  exists st'. split; [exact Hrun|]. split.
  - intros idx. split.
    + intros Hsome.
      destruct (decide (min_event ≤ idx ≤ max_event)%Z) as [Hidx|Hidx].
      2:{ rewrite (Hout idx (or_introl Hidx)) in Hsome. destruct Hsome. discriminate. }
      split; [exact Hidx|]. destruct (event_group idx) eqn:Hev; [eexists; reflexivity|].
      rewrite (Hout idx (or_intror Hev)) in Hsome. destruct Hsome. discriminate.
    + intros [Hidx [event Hev]].
      destruct (Hin idx event Hidx Hev) as (dataset & -> & _). eexists; reflexivity.
  - intros idx event dataset Hev Hds.
    destruct (decide (min_event ≤ idx ≤ max_event)%Z) as [Hidx|Hidx].
    2:{ rewrite (Hout idx (or_introl Hidx)) in Hds. discriminate. }
    destruct (Hin idx event Hidx Hev) as (dataset' & Hds' & Hdata & Hshape & _).
    assert (dataset' = dataset) as -> by congruence.
    split; [exact Hdata|]. split; [|exact Hshape].
    rewrite Hdata, length_fmap. apply load_cloud_length.
Qed.

(** X17.  The ion chamber attributes of a run.  Every dataset the loop
    leaves has exactly the attributes ic_amplitude, ic_integral and
    ic_centroid; they are the fields of the good ion chamber peak of the
    event, and -1 when the event has no ion chamber record or the record
    has no good peak. *)
Theorem phase_1_loop_ic_attributes (min_event max_event : Z)
    (queue0 : list StatusMessage) (log0 : list log_entry) :
  ¬ (window_time_bucket detector_params == micromegas_time_bucket detector_params)%Q →
  (∀ idx event, event_group idx = Some event → number event = idx) →
  ∃ st', loop (start queue0 log0) min_event max_event = Done st'
    ∧ ∀ idx dataset,
        cloud_group st' !! idx = Some dataset →
        attrs dataset !! "ic_amplitude"
        = Some (from_option amplitude (-1)%Q (ic_peak_of frib_evt_group idx))
        ∧ attrs dataset !! "ic_integral"
          = Some (from_option integral (-1)%Q (ic_peak_of frib_evt_group idx))
        ∧ attrs dataset !! "ic_centroid"
          = Some (from_option centroid (-1)%Q (ic_peak_of frib_evt_group idx))
        ∧ ∀ key, key ∉ ["ic_amplitude"; "ic_integral"; "ic_centroid"] →
            attrs dataset !! key = None.
Proof.
  intros Hne Hnum.
  destruct (loop_spec min_event max_event queue0 log0 Hne Hnum)
    as (st' & Hrun & _ & Hout & Hin).
  exists st'. split; [exact Hrun|]. intros idx dataset Hds.
  destruct (decide (min_event ≤ idx ≤ max_event)%Z) as [Hidx|Hidx].
  2:{ rewrite (Hout idx (or_introl Hidx)) in Hds. discriminate. }
  destruct (event_group idx) as [event|] eqn:Hev.
  2:{ rewrite (Hout idx (or_intror Hev)) in Hds. discriminate. }
  destruct (Hin idx event Hidx Hev) as (dataset' & Hds' & _ & _ & Hattrs).
  assert (dataset' = dataset) as -> by congruence. exact Hattrs.
Qed.

(** X18.  The progress messages of a run.  With a flush value that is not
    negative, a loop over min_event .. max_event that completes has put
    (max_event - min_event) / (flush_val + 1) messages on the queue, each
    of them StatusMessage(run, Phase.CLOUD, 1): one before every
    (flush_val + 1)-th index after the first, whether or not the indices
    have events. *)
Theorem phase_1_loop_progress (min_event max_event : Z)
    (queue0 : list StatusMessage) (log0 : list log_entry) (st' : state) :
  (0 ≤ flush_val)%Z →
  loop (start queue0 log0) min_event max_event = Done st' →
  queue st'
  = queue0 ++ replicate (Z.to_nat ((max_event - min_event) / (flush_val + 1)))
                        message.
Proof.
  intros HF Hrun. unfold Phase1.loop, event_range in Hrun.
  destruct (for_each_progress queue0 _ (start queue0 log0) st' 0 HF Hrun)
    as (q' & Hq & Heq & Hc & Hpos).
  { cbn. symmetry; apply app_nil_r. }
  { cbn. lia. }
  rewrite Hq. f_equal. f_equal. cbn [count start] in Heq.
  rewrite length_seqZ in Heq.
  destruct (decide (max_event < min_event)%Z) as [Hlt|Hge].
  - replace (Z.of_nat (Z.to_nat (max_event + 1 - min_event))) with 0%Z in Heq
      by lia.
    assert (q' = 0)%nat as -> by nia.
    symmetry. apply Z2Nat.nonpos.
    assert ((max_event - min_event) / (flush_val + 1) < 0)%Z; [|lia].
    apply Z.div_lt_upper_bound; lia.
  - assert (seqZ min_event (max_event + 1 - min_event) ≠ []) as Hne.
    { intros E. apply (f_equal length) in E. rewrite length_seqZ in E.
      cbn in E. lia. }
    specialize (Hpos Hne).
    rewrite <- (Z.div_unique (max_event - min_event) (flush_val + 1)
                  (Z.of_nat q') (count st' - 1)); [lia|lia|].
    rewrite Z2Nat.id in Heq by lia. lia.
Qed.

(** X19.  The log of a run.  The loop that completes has appended to the
    log the warnings of the constructions of its events, in the order of
    their indices, and nothing else. *)
Theorem phase_1_loop_log (min_event max_event : Z)
    (queue0 : list StatusMessage) (log0 : list log_entry) :
  ¬ (window_time_bucket detector_params == micromegas_time_bucket detector_params)%Q →
  (∀ idx event, event_group idx = Some event → number event = idx) →
  ∃ st', loop (start queue0 log0) min_event max_event = Done st'
    ∧ log st'
      = log0 ++ concat ((λ idx,
                  from_option
                    (λ event, (load_cloud_from_get_event
                                 (PointCloud_init INVALID_EVENT_NUMBER) event
                                 pad_map (Some corrector)).2)
                    [] (event_group idx))
                <$> seqZ min_event (max_event + 1 - min_event)).
Proof.
  intros Hne Hnum.
  destruct (loop_spec min_event max_event queue0 log0 Hne Hnum)
    as (st' & Hrun & Hlog & _).
  exists st'. split; [exact Hrun|exact Hlog].
Qed.

End Phase1Loop.

Lemma example_events_number (idx : Z) (event : GetEvent) :
  Phase1.example_events idx = Some event → number event = idx.
Proof.
  unfold Phase1.example_events. destruct (idx =? 4)%Z eqn:E; [|discriminate].
  intros [= <-]. apply Z.eqb_eq in E. subst idx. reflexivity.
Qed.

Lemma phase_1_loop_datasets_witness :
  ∃ st', Phase1.example_loop (Phase1.start [] []) 3 5 = Phase1.Done st'
    ∧ (∀ idx, is_Some (Phase1.cloud_group st' !! idx)
              ↔ (3 ≤ idx ≤ 5)%Z ∧ is_Some (Phase1.example_events idx))
    ∧ (∀ idx event dataset,
         Phase1.example_events idx = Some event →
         Phase1.cloud_group st' !! idx = Some dataset →
         Phase1.data dataset
         = calibrated 50 500 1000
             (Phase1.ic_correction_of {| Phase1.correct_ic_time := true |}
                Phase1.example_frib idx)
           <$> cloud (@load_cloud_from_get_event unused_math
                        (PointCloud_init (-1)) event example_pmap
                        (Some Phase1.example_corrector)).1
         ∧ length (Phase1.data dataset) = total_peaks event
         ∧ Phase1.shape dataset = Phase1.shape_of (Phase1.data dataset)).
Proof.
  apply (@phase_1_loop_datasets unused_math (-1) 7 example_pmap
           Phase1.example_corrector {| Phase1.correct_ic_time := true |}
           Phase1.example_detector 0 Phase1.example_events
           Phase1.example_frib 3 5 [] []).
  - intros E. discriminate E.
  - exact example_events_number.
Defined.

Lemma phase_1_loop_ic_attributes_witness :
  ∃ st', Phase1.example_loop (Phase1.start [] []) 3 5 = Phase1.Done st'
    ∧ ∀ idx dataset,
        Phase1.cloud_group st' !! idx = Some dataset →
        Phase1.attrs dataset !! "ic_amplitude"
        = Some (from_option amplitude (-1)%Q
                  (Phase1.ic_peak_of Phase1.example_frib idx))
        ∧ Phase1.attrs dataset !! "ic_integral"
          = Some (from_option integral (-1)%Q
                    (Phase1.ic_peak_of Phase1.example_frib idx))
        ∧ Phase1.attrs dataset !! "ic_centroid"
          = Some (from_option centroid (-1)%Q
                    (Phase1.ic_peak_of Phase1.example_frib idx))
        ∧ ∀ key, key ∉ ["ic_amplitude"; "ic_integral"; "ic_centroid"] →
            Phase1.attrs dataset !! key = None.
Proof.
  apply (@phase_1_loop_ic_attributes unused_math (-1) 7 example_pmap
           Phase1.example_corrector {| Phase1.correct_ic_time := true |}
           Phase1.example_detector 0 Phase1.example_events
           Phase1.example_frib 3 5 [] []).
  - intros E. discriminate E.
  - exact example_events_number.
Defined.

Lemma phase_1_loop_progress_witness :
  ∃ st', Phase1.example_loop (Phase1.start [] []) 3 5 = Phase1.Done st'
    ∧ Phase1.queue st'
      = [] ++ replicate (Z.to_nat ((5 - 3) / (0 + 1)))
                (Phase1.Build_StatusMessage 7 Phase1.CLOUD 1).
Proof.
  eexists. split; [vm_compute; reflexivity|].
  apply (@phase_1_loop_progress unused_math (-1) 7 example_pmap
           Phase1.example_corrector {| Phase1.correct_ic_time := true |}
           Phase1.example_detector 0 Phase1.example_events
           Phase1.example_frib 3 5 [] []); [lia|].
  vm_compute. reflexivity.
Defined.

Lemma phase_1_loop_log_witness :
  ∃ st', Phase1.example_loop (Phase1.start [] []) 3 5 = Phase1.Done st'
    ∧ Phase1.log st'
      = [] ++ concat ((λ idx,
                  from_option
                    (λ event, (@load_cloud_from_get_event unused_math
                                 (PointCloud_init (-1)) event
                                 example_pmap (Some Phase1.example_corrector)).2)
                    [] (Phase1.example_events idx))
                <$> seqZ 3 (5 + 1 - 3)).
Proof.
  apply (@phase_1_loop_log unused_math (-1) 7 example_pmap
           Phase1.example_corrector {| Phase1.correct_ic_time := true |}
           Phase1.example_detector 0 Phase1.example_events
           Phase1.example_frib 3 5 [] []).
  - intros E. discriminate E.
  - exact example_events_number.
Defined.

(** ** Sorting without ties *)

Lemma sorted_indices_unique (key : nat → Q) (a : list nat) : ∀ b : list nat,
  a ≡ₚ b →
  (∀ i j, i ∈ a → j ∈ a → (key i == key j)%Q → i = j) →
  (∀ x y i j, (x < y)%nat → a !! x = Some i → a !! y = Some j →
              (key i <= key j)%Q) →
  (∀ x y i j, (x < y)%nat → b !! x = Some i → b !! y = Some j →
              (key i <= key j)%Q) →
  a = b.
Proof.
  induction a as [|i a IH]; intros b Hperm Hinj Ha Hb.
  { symmetry. apply Permutation_nil_r. symmetry. exact Hperm. }
  destruct b as [|j b].
  { apply Permutation_length in Hperm. discriminate Hperm. }
  assert (i = j) as <-.
  { destruct (decide (i = j)) as [E|Hij]; [exact E|].
    assert (j ∈ a) as Hj.
    { assert (j ∈ i :: a) as Hj by (rewrite Hperm; left).
      apply elem_of_cons in Hj as [E|Hj]; [congruence|exact Hj]. }
    assert (i ∈ b) as Hi.
    { assert (i ∈ j :: b) as Hi by (rewrite <- Hperm; left).
      apply elem_of_cons in Hi as [E|Hi]; [congruence|exact Hi]. }
    apply list_elem_of_lookup in Hj as [y Hy].
    apply list_elem_of_lookup in Hi as [x Hx].
    apply Hinj; [left|right; eapply list_elem_of_lookup_2, Hy|].
    apply Qle_antisym.
    - apply (Ha 0 (S y))%nat; [lia|reflexivity|exact Hy].
    - apply (Hb 0 (S x))%nat; [lia|reflexivity|exact Hx]. }
  f_equal. apply IH.
  - apply (Permutation_cons_inv Hperm).
  - intros k l Hk Hl. apply Hinj; right; assumption.
  - intros x y k l Hxy Hk Hl. apply (Ha (S x) (S y)); [lia|exact Hk|exact Hl].
  - intros x y k l Hxy Hk Hl. apply (Hb (S x) (S y)); [lia|exact Hk|exact Hl].
Qed.

(** X20.  Ties are all that np.argsort leaves open: on a cloud whose
    points have pairwise different z, sort_in_z gives the same cloud with
    any two index sorts that keep the contract of np.argsort. *)
Theorem sort_in_z_distinct_z (argsort1 argsort2 : list Q → list nat)
    (self : PointCloud) :
  (∀ i j p q, cloud self !! i = Some p → cloud self !! j = Some q →
              (get p 2 == get q 2)%Q → i = j) →
  Np.is_argsort (z_column (cloud self)) (argsort1 (z_column (cloud self))) →
  Np.is_argsort (z_column (cloud self)) (argsort2 (z_column (cloud self))) →
  sort_in_z argsort1 self = sort_in_z argsort2 self.
Proof.
  intros Hinj [Hperm1 Hsorted1] [Hperm2 Hsorted2]. unfold sort_in_z.
  replace (argsort2 (z_column (cloud self)))
    with (argsort1 (z_column (cloud self))); [reflexivity|].
  apply (sorted_indices_unique (get (z_column (cloud self))));
    [rewrite Hperm1, Hperm2; reflexivity| |exact Hsorted1|exact Hsorted2].
  intros i j Hi Hj E. rewrite Hperm1 in Hi, Hj.
  apply elem_of_seq in Hi, Hj. unfold z_column in Hi, Hj.
  rewrite length_map in Hi, Hj.
  destruct (lookup_lt_is_Some_2 (cloud self) i ltac:(lia)) as [p Hp].
  destruct (lookup_lt_is_Some_2 (cloud self) j ltac:(lia)) as [q Hq].
  apply (Hinj i j p q Hp Hq).
  rewrite <- (get_z_column _ _ _ Hp), <- (get_z_column _ _ _ Hq). exact E.
Qed.

Lemma sort_in_z_distinct_z_witness :
  sort_in_z last_first_argsort distinct_z_cloud
  = sort_in_z stable_argsort distinct_z_cloud.
Proof.
  apply (sort_in_z_distinct_z last_first_argsort stable_argsort distinct_z_cloud).
  - intros i j p q Hp Hq E.
    destruct i as [|[|[|i]]]; destruct j as [|[|[|j]]];
      try reflexivity; try discriminate Hp; try discriminate Hq;
      injection Hp as <-; injection Hq as <-; vm_compute in E; discriminate E.
  - apply check_argsort_sound. vm_compute. reflexivity.
  - apply check_argsort_sound. vm_compute. reflexivity.
Defined.
